(** * otel-log-sender: the batching log exporter of [main.go]

    A shallow embedding of the program and the properties proved about it.

    - Go structs are records with the fields of the source; a pointer
      field ([*string], [*ArrayValue], ...) is an [option], [None] being
      the nil pointer.
    - [int], [int64] and [uint64] values are integers of [Z]; the two
      conversions the program performs ([int64(val)] and
      [uint64(time.Now().UnixNano())]) are written out with their
      wrap-around.
    - [float64] is the binary64 type of the kernel.
    - A Go string is a sequence of bytes: [string].
    - The buffered channel [logQueue] is its capacity and the list of the
      records it holds, oldest first.
    - [processQueue] is a loop around a [select]; each of its two cases is
      a transition of the system, and so is a call of [Log] by a producer.
    - The network and the diagnostic log are effects: the answers of the
      network are an input of every transition that may send, and what
      the program prints and posts is collected in a trace. *)

From Stdlib Require Import ZArith List String Ascii Bool Lia DecimalString.
From Stdlib Require Import Strings.Byte.
From Stdlib Require Import Floats.
Import ListNotations.

Set Warnings "-register-all".

Local Open Scope string_scope.
Local Open Scope Z_scope.

(** * The program *)

(** ** The data model (main.go, lines 12-99) *)

(** [AttributeValue] (and [ArrayValue], [KvlistValue], [KeyValue], which it
    is defined with).  The field [ArrayValue *ArrayValue] is [ArrayVal]
    here and [KvlistValue *KvlistValue] is [KvlistVal], the names of the
    two struct types being taken.  A slice whose JSON tag has no
    [omitempty] is an [option (list _)]: [None] is the nil slice, which is
    written as [null], and [Some []] the empty one, written as an empty
    array.  A slice tagged [omitempty] is a plain list: nil and empty are
    both left out. *)
Inductive AttributeValue : Type := mkAttributeValue {
  StringValue : option string;
  BoolValue : option bool;
  IntValue : option Z;
  DoubleValue : option float;
  ArrayVal : option ArrayValue;
  KvlistVal : option KvlistValue;
  BytesValue : list byte }
with ArrayValue : Type := mkArrayValue {
  ArrayValue_Values : option (list AttributeValue) }
with KvlistValue : Type := mkKvlistValue {
  KvlistValue_Values : option (list KeyValue) }
with KeyValue : Type := mkKeyValue {
  Key : string;
  Value : AttributeValue }.

Record Resource : Type := mkResource {
  Resource_Attributes : option (list KeyValue) }.

Record Scope : Type := mkScope {
  Name : string;
  Version : string }.

Record LogRecord : Type := mkLogRecord {
  TimeUnixNano : Z;
  SeverityText : string;
  SeverityNumber : Z;
  Body : AttributeValue;
  Attributes : list KeyValue }.

(** [LogRecords []*LogRecord] and [ScopeLogs []*ScopeLogs]: the program
    stores only addresses of records it has just built, never nil. *)
Record ScopeLogs : Type := mkScopeLogs {
  ScopeLogs_Scope : Scope;
  LogRecords : list LogRecord }.

Record ResourceLogs : Type := mkResourceLogs {
  ResourceLogs_Resource : Resource;
  ResourceLogs_ScopeLogs : list ScopeLogs }.

(** The zero value of [AttributeValue]: no field set. *)
Definition unset : AttributeValue :=
  mkAttributeValue None None None None None None [].

(** The composite literals of the program: [AttributeValue{StringValue: &s}]
    and its like set one field and leave the others zero. *)
Definition ofString (s : string) : AttributeValue :=
  mkAttributeValue (Some s) None None None None None [].
Definition ofBool (b : bool) : AttributeValue :=
  mkAttributeValue None (Some b) None None None None [].
Definition ofInt64 (n : Z) : AttributeValue :=
  mkAttributeValue None None (Some n) None None None [].
Definition ofFloat64 (f : float) : AttributeValue :=
  mkAttributeValue None None None (Some f) None None [].

(** How many of the seven fields of a value are set.  [BytesValue] is a
    slice, set when it holds a byte. *)
Definition count_set {A : Type} (o : option A) : nat :=
  match o with Some _ => 1%nat | None => 0%nat end.

Definition populated (v : AttributeValue) : nat :=
  (count_set (StringValue v) + count_set (BoolValue v) + count_set (IntValue v)
   + count_set (DoubleValue v) + count_set (ArrayVal v) + count_set (KvlistVal v)
   + match BytesValue v with [] => 0 | _ :: _ => 1 end)%nat.

(** The variant a value stands for, when exactly one field is set. *)
Inductive Variant : Type :=
| VString (s : string)
| VBool (b : bool)
| VInt64 (n : Z)
| VDouble (f : float)
| VArray (a : ArrayValue)
| VKvlist (k : KvlistValue)
| VBytes (b : list byte).

Definition variant_of (v : AttributeValue) : option Variant :=
  match v with
  | mkAttributeValue (Some s) None None None None None [] => Some (VString s)
  | mkAttributeValue None (Some b) None None None None [] => Some (VBool b)
  | mkAttributeValue None None (Some n) None None None [] => Some (VInt64 n)
  | mkAttributeValue None None None (Some f) None None [] => Some (VDouble f)
  | mkAttributeValue None None None None (Some a) None [] => Some (VArray a)
  | mkAttributeValue None None None None None (Some k) [] => Some (VKvlist k)
  | mkAttributeValue None None None None None None (b :: bs) => Some (VBytes (b :: bs))
  | _ => None
  end.

(** ** Integers of the machine *)

(** The value of a 64-bit pattern read as a signed integer: what the
    conversion [int64(x)] yields for an integer [x]. *)
Definition int64 (x : Z) : Z := (x + 2 ^ 63) mod 2 ^ 64 - 2 ^ 63.

(** The conversion [uint64(x)]. *)
Definition uint64 (x : Z) : Z := x mod 2 ^ 64.

Definition in_int64 (x : Z) : Prop := - 2 ^ 63 <= x < 2 ^ 63.
Definition in_uint64 (x : Z) : Prop := 0 <= x < 2 ^ 64.

(** [%d] of an integer. *)
Definition decimal (x : Z) : string := NilZero.string_of_int (Z.to_int x).

(** ** Values of type [interface{}] *)

(** A value handed to [Log] in the attribute map, by its dynamic type.
    The five types that the type switch of [convertToAttributeValue] names
    have a constructor each; [GoElse] is a value of any other type, the one
    its default case receives. *)
Inductive OtherValue : Type :=
| GoInt8 (n : Z)
| GoInt16 (n : Z)
| GoInt32 (n : Z)
| GoUint (n : Z)
| GoUint8 (n : Z)
| GoUint16 (n : Z)
| GoUint32 (n : Z)
| GoUint64 (n : Z)
| GoNil
| GoOther (text : string).

Inductive GoValue : Type :=
| GoString (s : string)
| GoInt (n : Z)
| GoInt64 (n : Z)
| GoFloat64 (f : float)
| GoBool (b : bool)
| GoElse (o : OtherValue).

(** [fmt.Sprintf("%v", val)] in the default case: an integer of another
    width or an unsigned one is printed in decimal and nil as [<nil>];
    [GoOther] is a value of any further type (float32, a slice, a struct,
    an error, ...), given by the text that [%v] prints for it. *)
Definition Sprintf_v (val : OtherValue) : string :=
  match val with
  | GoInt8 n | GoInt16 n | GoInt32 n => decimal n
  | GoUint n | GoUint8 n | GoUint16 n | GoUint32 n | GoUint64 n => decimal n
  | GoNil => "<nil>"
  | GoOther text => text
  end.

(** main.go, lines 150-167. *)
Definition convertToAttributeValue (v : GoValue) : AttributeValue :=
  match v with
  | GoString val => ofString val
  | GoInt val => let intVal := int64 val in ofInt64 intVal
  | GoInt64 val => ofInt64 val
  | GoFloat64 val => ofFloat64 val
  | GoBool val => ofBool val
  | GoElse val => let strVal := Sprintf_v val in ofString strVal
  end.

(** ** Errors *)

(** A Go [error] is the text of its message; a call that returns
    [(T, error)] returns a [result]. *)
Definition error : Type := string.

Inductive result (A : Type) : Type :=
| Ok (a : A)
| Err (e : error).
Arguments Ok {A} a.
Arguments Err {A} e.

Definition bind {A B : Type} (r : result A) (k : A -> result B) : result B :=
  match r with
  | Ok a => k a
  | Err e => Err e
  end.

Notation "x <- r ;; k" := (bind r (fun x => k))
  (at level 61, r at next level, right associativity).

(** The results of a function over a slice, in order, up to the first
    error. *)
Definition traverse {A B : Type} (f : A -> result B) : list A -> result (list B) :=
  fix go (l : list A) : result (list B) :=
    match l with
    | [] => Ok []
    | x :: rest => y <- f x ;; ys <- go rest ;; Ok (y :: ys)
    end.

(** ** JSON documents *)

(** What [json.Marshal] writes, as a tree.  The tree keeps what the text
    says and leaves its spelling out: a string leaf is the string that the
    literal denotes, a number leaf the number and the Go type it was
    written from, a [JBytes] leaf the bytes a base64 string literal
    denotes.  The fields of an object are in the order written. *)
Inductive JSON : Type :=
| JNull
| JBool (b : bool)
| JInt (n : Z)
| JFloat (f : float)
| JStr (s : string)
| JBytes (b : list byte)
| JArr (items : list JSON)
| JObj (fields : list (string * JSON)).

(** *** Strings

    encoding/json writes a string coerced to valid UTF-8: it walks the
    bytes with utf8.DecodeRuneInString and writes U+FFFD in place of each
    byte that starts no well-formed sequence. *)

Definition byte_between (lo hi : N) (c : ascii) : bool :=
  (lo <=? N_of_ascii c)%N && (N_of_ascii c <=? hi)%N.

(** The number of bytes of the well-formed UTF-8 sequence that starts with
    byte [b] followed by [rest], if there is one (the table [first] and the
    [acceptRanges] of package utf8). *)
Definition rune_width (b : ascii) (rest : string) : option nat :=
  let x := N_of_ascii b in
  if (x <? 0x80)%N then Some 1%nat
  else if byte_between 0xC2 0xDF b then
    match rest with
    | String c1 _ => if byte_between 0x80 0xBF c1 then Some 2%nat else None
    | _ => None
    end
  else if byte_between 0xE0 0xEF b then
    match rest with
    | String c1 (String c2 _) =>
        let lo := if (x =? 0xE0)%N then 0xA0%N else 0x80%N in
        let hi := if (x =? 0xED)%N then 0x9F%N else 0xBF%N in
        if byte_between lo hi c1 && byte_between 0x80 0xBF c2
        then Some 3%nat else None
    | _ => None
    end
  else if byte_between 0xF0 0xF4 b then
    match rest with
    | String c1 (String c2 (String c3 _)) =>
        let lo := if (x =? 0xF0)%N then 0x90%N else 0x80%N in
        let hi := if (x =? 0xF4)%N then 0x8F%N else 0xBF%N in
        if byte_between lo hi c1 && byte_between 0x80 0xBF c2
           && byte_between 0x80 0xBF c3
        then Some 4%nat else None
    | _ => None
    end
  else None.

(** U+FFFD in UTF-8. *)
Definition replacement : string :=
  String (ascii_of_N 0xEF) (String (ascii_of_N 0xBF) (String (ascii_of_N 0xBD) EmptyString)).

(** [skip] is the number of bytes still to copy of the sequence begun. *)
Fixpoint coerce (skip : nat) (s : string) : string :=
  match s with
  | EmptyString => EmptyString
  | String b rest =>
      match skip with
      | S k => String b (coerce k rest)
      | O =>
          match rune_width b rest with
          | Some n => String b (coerce (Nat.pred n) rest)
          | None => replacement ++ coerce 0 rest
          end
      end
  end.

Definition toValidUTF8 (s : string) : string := coerce 0 s.

Definition marshalString (s : string) : result JSON := Ok (JStr (toValidUTF8 s)).

(** *** Numbers

    A float64 that is NaN or infinite has no JSON number:
    [json.Marshal] fails with an UnsupportedValueError. *)
Definition marshalFloat64 (f : float) : result JSON :=
  if PrimFloat.is_nan f then Err "json: unsupported value: NaN"
  else if PrimFloat.is_infinity f then
    Err (if (f <? 0)%float then "json: unsupported value: -Inf"
         else "json: unsupported value: +Inf")
  else Ok (JFloat f).

(** *** Struct fields *)

(** A pointer field tagged [omitempty]: left out when nil. *)
Definition ptr_omitempty {A : Type} (key : string) (enc : A -> result JSON)
    (p : option A) : result (list (string * JSON)) :=
  match p with
  | None => Ok []
  | Some x => j <- enc x ;; Ok [(key, j)]
  end.

(** A slice field tagged [omitempty]: left out when its length is 0. *)
Definition slice_omitempty {A : Type} (key : string) (enc : A -> result JSON)
    (l : list A) : result (list (string * JSON)) :=
  match l with
  | [] => Ok []
  | _ :: _ => js <- traverse enc l ;; Ok [(key, JArr js)]
  end.

(** A slice field with no [omitempty]: [null] when nil. *)
Definition slice_field {A : Type} (key : string) (enc : A -> result JSON)
    (l : option (list A)) : result (list (string * JSON)) :=
  match l with
  | None => Ok [(key, JNull)]
  | Some l => js <- traverse enc l ;; Ok [(key, JArr js)]
  end.

(** A field of any type with no [omitempty]. *)
Definition field (key : string) (j : result JSON) : result (list (string * JSON)) :=
  j <- j ;; Ok [(key, j)].

(** *** The structs of the program, by their tags (main.go, lines 15-99) *)

Fixpoint marshalAttributeValue (v : AttributeValue) : result JSON :=
  f1 <- ptr_omitempty "stringValue" marshalString (StringValue v) ;;
  f2 <- ptr_omitempty "boolValue" (fun b => Ok (JBool b)) (BoolValue v) ;;
  f3 <- ptr_omitempty "intValue" (fun n => Ok (JInt n)) (IntValue v) ;;
  f4 <- ptr_omitempty "doubleValue" marshalFloat64 (DoubleValue v) ;;
  f5 <- ptr_omitempty "arrayValue" marshalArrayValue (ArrayVal v) ;;
  f6 <- ptr_omitempty "kvlistValue" marshalKvlistValue (KvlistVal v) ;;
  f7 <- match BytesValue v with
        | [] => Ok []
        | b => Ok [("bytesValue", JBytes b)]
        end ;;
  Ok (JObj (f1 ++ f2 ++ f3 ++ f4 ++ f5 ++ f6 ++ f7))
with marshalArrayValue (a : ArrayValue) : result JSON :=
  f1 <- slice_field "values" marshalAttributeValue (ArrayValue_Values a) ;;
  Ok (JObj f1)
with marshalKvlistValue (k : KvlistValue) : result JSON :=
  f1 <- slice_field "values" marshalKeyValue (KvlistValue_Values k) ;;
  Ok (JObj f1)
with marshalKeyValue (kv : KeyValue) : result JSON :=
  f1 <- field "key" (marshalString (Key kv)) ;;
  f2 <- field "value" (marshalAttributeValue (Value kv)) ;;
  Ok (JObj (f1 ++ f2)).

Definition marshalResource (r : Resource) : result JSON :=
  f1 <- slice_field "attributes" marshalKeyValue (Resource_Attributes r) ;;
  Ok (JObj f1).

Definition marshalScope (s : Scope) : result JSON :=
  f1 <- field "name" (marshalString (Name s)) ;;
  f2 <- match Version s with
        | EmptyString => Ok []
        | v => field "version" (marshalString v)
        end ;;
  Ok (JObj (f1 ++ f2)).

Definition marshalLogRecord (r : LogRecord) : result JSON :=
  f1 <- field "timeUnixNano" (Ok (JInt (TimeUnixNano r))) ;;
  f2 <- field "severityText" (marshalString (SeverityText r)) ;;
  f3 <- field "severityNumber" (Ok (JInt (SeverityNumber r))) ;;
  f4 <- field "body" (marshalAttributeValue (Body r)) ;;
  f5 <- slice_omitempty "attributes" marshalKeyValue (Attributes r) ;;
  Ok (JObj (f1 ++ f2 ++ f3 ++ f4 ++ f5)).

Definition marshalScopeLogs (s : ScopeLogs) : result JSON :=
  f1 <- field "scope" (marshalScope (ScopeLogs_Scope s)) ;;
  f2 <- slice_omitempty "log_records" marshalLogRecord (LogRecords s) ;;
  Ok (JObj (f1 ++ f2)).

Definition marshalResourceLogs (r : ResourceLogs) : result JSON :=
  f1 <- field "resource" (marshalResource (ResourceLogs_Resource r)) ;;
  f2 <- slice_omitempty "scope_logs" marshalScopeLogs (ResourceLogs_ScopeLogs r) ;;
  Ok (JObj (f1 ++ f2)).

(** [json.Marshal] of the map [{"resourceLogs": []ResourceLogs{...}}]. *)
Definition marshalPayload (resourceLogs : list ResourceLogs) : result JSON :=
  js <- traverse marshalResourceLogs resourceLogs ;;
  Ok (JObj [("resourceLogs", JArr js)]).

(** ** The sender (main.go, lines 101-121) *)

(** A buffered channel: [make(chan A, cap)], with the elements it
    holds, oldest first. *)
Record chan (A : Type) : Type := mkChan {
  chan_cap : nat;
  chan_buf : list A }.
Arguments mkChan {A} chan_cap chan_buf.
Arguments chan_cap {A} c.
Arguments chan_buf {A} c.

Definition make_chan (A : Type) (cap : nat) : chan A := mkChan cap [].

(** [select { case c <- x: ... default: ... }]: the send goes through when
    the buffer has room, and the default case runs otherwise. *)
Definition try_send {A : Type} (c : chan A) (x : A) : option (chan A) :=
  if (List.length (chan_buf c) <? chan_cap c)%nat
  then Some (mkChan (chan_cap c) (chan_buf c ++ [x]))
  else None.

(** [x := <-c], when the channel holds an element. *)
Definition receive {A : Type} (c : chan A) : option (A * chan A) :=
  match chan_buf c with
  | [] => None
  | x :: rest => Some (x, mkChan (chan_cap c) rest)
  end.

(** [LogSender].  Its [client] is the network below. *)
Record LogSender : Type := mkLogSender {
  endpoint : string;
  batchSize : Z;
  logQueue : chan LogRecord }.

Definition NewLogSender (endpoint : string) (batchSize : Z) : LogSender :=
  mkLogSender endpoint batchSize (make_chan LogRecord 1000).

Definition with_logQueue (ls : LogSender) (q : chan LogRecord) : LogSender :=
  mkLogSender (endpoint ls) (batchSize ls) q.

(** ** The network *)

Record Request : Type := mkRequest {
  Method : string;
  URL : string;
  Header : list (string * string);
  RequestBody : JSON }.

(** The body of a response as the program reads it: what
    [json.NewDecoder(resp.Body).Decode(&responseBody)] returns for it,
    [Ok] with the text [%+v] prints for the decoded map or the error of
    the decoder. *)
Record Response : Type := mkResponse {
  StatusCode : Z;
  ResponseBody : result string }.

(** What the world answers to one call of [sendBatch]: the error, if any,
    with which [http.NewRequest] refuses a URL, and the result of
    [client.Do] for a request. *)
Record Network : Type := mkNetwork {
  url_error : string -> option error;
  Do : Request -> result Response }.

Definition NewRequest (net : Network) (method url : string) (body : JSON)
    : result Request :=
  match url_error net url with
  | Some e => Err e
  | None => Ok (mkRequest method url [] body)
  end.

Definition Header_Set (req : Request) (key value : string) : Request :=
  mkRequest (Method req) (URL req)
    ((key, value) :: filter (fun h => negb (String.eqb (fst h) key)) (Header req))
    (RequestBody req).

(** ** Effects *)

(** What the program does to the outside: a line on the diagnostic log
    ([log.Println], [log.Printf]) or a request handed to [client.Do]. *)
Inductive Effect : Type :=
| LogLine (msg : string)
| HttpDo (req : Request).

(** The branch in which a call of [sendBatch] ends:
    - [EncodeFailure]: [json.Marshal] returned an error (line 251);
    - [RequestFailure]: [http.NewRequest] returned an error (line 257);
    - [TransportFailure]: [client.Do] returned an error (line 264);
    - [Rejected]: a response with [StatusCode >= 400] (line 270);
    - [Delivered]: any other response (line 278). *)
Inductive Outcome : Type :=
| EncodeFailure
| RequestFailure
| TransportFailure
| Rejected
| Delivered.

(** ** sendBatch (main.go, lines 191-281) *)

Definition resource : Resource :=
  mkResource (Some
    [ mkKeyValue "service.name" (ofString "my-go-app");
      mkKeyValue "service.version" (ofString "1.0.0");
      mkKeyValue "telemetry.sdk.language" (ofString "go") ]).

Definition scope : Scope := mkScope "custom-logger" "1.0".

Definition payload (batch : list LogRecord) : list ResourceLogs :=
  let scopeLogs := [ mkScopeLogs scope batch ] in
  [ mkResourceLogs resource scopeLogs ].

Definition sendBatch (ls : LogSender) (net : Network) (batch : list LogRecord)
    : Outcome * list Effect :=
  match marshalPayload (payload batch) with
  | Err err => (EncodeFailure, [LogLine ("Error marshaling log batch: " ++ err)])
  | Ok jsonData =>
      match NewRequest net "POST" (endpoint ls ++ "/v1/logs") jsonData with
      | Err err => (RequestFailure, [LogLine ("Error creating request: " ++ err)])
      | Ok req =>
          let req := Header_Set req "Content-Type" "application/json" in
          match Do net req with
          | Err err =>
              (TransportFailure, [HttpDo req; LogLine ("Error sending logs: " ++ err)])
          | Ok resp =>
              if StatusCode resp >=? 400 then
                (Rejected,
                 [ HttpDo req;
                   match ResponseBody resp with
                   | Ok responseBody => LogLine ("Error response: " ++ responseBody)
                   | Err err => LogLine ("Failed to decode error response: " ++ err)
                   end;
                   LogLine ("Received status code: " ++ decimal (StatusCode resp)) ])
              else
                (Delivered, [HttpDo req; LogLine "Logs successfully sent"])
          end
      end
  end.

(** ** Log (main.go, lines 123-148) *)

(** The state of the running program: the sender, whose queue the
    producers and the worker share; [batch], the local variable of
    [processQueue]; the effects so far; and the calls of [sendBatch] so
    far, each with the case of the [select] that made it. *)
Inductive Trigger : Type :=
| BySize
| ByTimer.

Record System : Type := mkSystem {
  sender : LogSender;
  batch : list LogRecord;
  effects : list Effect;
  flushes : list (Trigger * list LogRecord) }.

(** The record that [Log] builds.  [now] is [time.Now().UnixNano()]; the
    attribute map is [None] when nil and else its entries in the order in
    which [range] visits them. *)
Definition new_entry (now : Z) (severityText : string) (severityNumber : Z)
    (message : string) (attrs : option (list (string * GoValue))) : LogRecord :=
  let body := ofString message in
  mkLogRecord (uint64 now) severityText severityNumber body
    match attrs with
    | None => []
    | Some attrs =>
        map (fun kv => mkKeyValue (fst kv) (convertToAttributeValue (snd kv))) attrs
    end.

Definition Log (now : Z) (severityText : string) (severityNumber : Z)
    (message : string) (attrs : option (list (string * GoValue)))
    (s : System) : System :=
  let entry := new_entry now severityText severityNumber message attrs in
  match try_send (logQueue (sender s)) entry with
  | Some q => mkSystem (with_logQueue (sender s) q) (batch s) (effects s) (flushes s)
  | None =>
      mkSystem (sender s) (batch s)
        (effects s ++ [LogLine "Log queue full, dropping log entry"]) (flushes s)
  end.

(** ** processQueue (main.go, lines 169-189) *)

(** A call of [sendBatch] by the worker, followed by [batch = nil]. *)
Definition flush (t : Trigger) (net : Network) (ls : LogSender)
    (batch : list LogRecord) (s : System) : System :=
  mkSystem ls []
    (effects s ++ snd (sendBatch ls net batch))
    (flushes s ++ [(t, batch)]).

(** The case [entry := <-ls.logQueue], enabled when the queue holds a
    record. *)
Definition on_entry (net : Network) (s : System) : option System :=
  match receive (logQueue (sender s)) with
  | None => None
  | Some (entry, q) =>
      let ls := with_logQueue (sender s) q in
      let batch := (batch s ++ [entry])%list in
      if Z.of_nat (List.length batch) >=? batchSize ls
      then Some (flush BySize net ls batch s)
      else Some (mkSystem ls batch (effects s) (flushes s))
  end.

(** The case [<-ticker.C]. *)
Definition on_tick (net : Network) (s : System) : System :=
  if (0 <? List.length (batch s))%nat
  then flush ByTimer net (sender s) (batch s) s
  else s.

(** ** Runs *)

(** What happens next: a producer calls [Log], or the worker takes one
    of the two cases of its [select].  [net] is what the network answers
    should the step send a batch. *)
Inductive Action : Type :=
| ALog (now : Z) (severityText : string) (severityNumber : Z)
       (message : string) (attrs : option (list (string * GoValue)))
| AEntry (net : Network)
| ATick (net : Network).

Definition step (s : System) (a : Action) : option System :=
  match a with
  | ALog now severityText severityNumber message attrs =>
      Some (Log now severityText severityNumber message attrs s)
  | AEntry net => on_entry net s
  | ATick net => Some (on_tick net s)
  end.

(** A run: [None] when an action of the schedule is not enabled where it
    stands. *)
Fixpoint run (s : System) (schedule : list Action) : option System :=
  match schedule with
  | [] => Some s
  | a :: rest =>
      match step s a with
      | Some s' => run s' rest
      | None => None
      end
  end.

(** [Start] on a new sender: the worker begins with [var batch]. *)
Definition Start (ls : LogSender) : System := mkSystem ls [] [] [].

(** * Notions for the statements *)

(** ** Requests and lines of the log *)

(** The request [sendBatch] hands to the client for a document. *)
Definition post_request (ls : LogSender) (jsonData : JSON) : Request :=
  Header_Set (mkRequest "POST" (endpoint ls ++ "/v1/logs") [] jsonData)
    "Content-Type" "application/json".

(** The requests among some effects. *)
Fixpoint posts (l : list Effect) : list Request :=
  match l with
  | [] => []
  | HttpDo req :: rest => req :: posts rest
  | LogLine _ :: rest => posts rest
  end.

(** The lines among some effects that report that the body of an error
    response could not be decoded. *)
Definition decode_failure (e : Effect) : bool :=
  match e with
  | LogLine msg => prefix "Failed to decode error response: " msg
  | HttpDo _ => false
  end.

(** ** One field per value *)

(** A record whose body and attribute values have one field set each. *)
Definition one_of_record (r : LogRecord) : Prop :=
  populated (Body r) = 1%nat /\
  Forall (fun kv => populated (Value kv) = 1%nat) (Attributes r).

(** Every record the running program holds, in the queue, in the batch
    of the worker or in a batch it has sent, has one field set in its
    body and in each of its attribute values. *)
Definition all_one_of (s : System) : Prop :=
  Forall one_of_record (chan_buf (logQueue (sender s))) /\
  Forall one_of_record (batch s) /\
  Forall (fun f => Forall one_of_record (snd f)) (flushes s).

(** ** Schedules *)

(** The records built by the calls of [Log] in a schedule, in order. *)
Fixpoint logged (schedule : list Action) : list LogRecord :=
  match schedule with
  | [] => []
  | ALog now severityText severityNumber message attrs :: rest =>
      new_entry now severityText severityNumber message attrs :: logged rest
  | _ :: rest => logged rest
  end.

(** The number of records the worker takes from the queue. *)
Fixpoint entries (schedule : list Action) : nat :=
  match schedule with
  | [] => 0
  | AEntry _ :: rest => S (entries rest)
  | _ :: rest => entries rest
  end.

Definition is_tick (a : Action) : bool :=
  match a with ATick _ => true | _ => false end.

Definition no_tick (schedule : list Action) : Prop :=
  forallb (fun a => negb (is_tick a)) schedule = true.

(** The state of a sender with threshold 10 after the worker has taken
    [k] of the records [recs] logged so far, fewer than 20, and no tick
    has come: the queue holds the others, and the first ten, once taken,
    have been sent. *)
Definition after (ep : string) (k : nat) (recs : list LogRecord) (s : System) : Prop :=
  (k <= List.length recs)%nat /\
  sender s = mkLogSender ep 10 (mkChan 1000 (skipn k recs)) /\
  batch s = (if (k <? 10)%nat then firstn k recs else skipn 10 (firstn k recs)) /\
  flushes s = (if (k <? 10)%nat then [] else [(BySize, firstn 10 recs)]).




(** ** The shape of a document *)

(** The keys of an object, in the order written. *)
Definition keys (j : JSON) : list string :=
  match j with
  | JObj fields => map fst fields
  | _ => []
  end.

(** The value under a key of an object. *)
Definition get (key : string) (j : JSON) : option JSON :=
  match j with
  | JObj fields => option_map snd (find (fun f => String.eqb (fst f) key) fields)
  | _ => None
  end.

Definition present {A : Type} (key : string) (o : option A) : list string :=
  match o with
  | Some _ => [key]
  | None => []
  end.

Definition nonempty {A : Type} (key : string) (l : list A) : list string :=
  match l with
  | [] => []
  | _ :: _ => [key]
  end.

(** The keys of the fields that are set in a value. *)
Definition variant_keys (v : AttributeValue) : list string :=
  (present "stringValue" (StringValue v) ++ present "boolValue" (BoolValue v)
   ++ present "intValue" (IntValue v) ++ present "doubleValue" (DoubleValue v)
   ++ present "arrayValue" (ArrayVal v) ++ present "kvlistValue" (KvlistVal v)
   ++ nonempty "bytesValue" (BytesValue v))%list.

Definition not_null (f : string * JSON) : Prop := snd f <> JNull.

Definition opt_field (key : string) (o : option JSON) : list (string * JSON) :=
  match o with
  | Some j => [(key, j)]
  | None => []
  end.

(** The document of a batch, but for the field of the records. *)
Definition envelope (log_records : list (string * JSON)) : JSON :=
  JObj [("resourceLogs", JArr [JObj
    [ ("resource", JObj [("attributes", JArr
         [ JObj [("key", JStr "service.name");
                 ("value", JObj [("stringValue", JStr "my-go-app")])];
           JObj [("key", JStr "service.version");
                 ("value", JObj [("stringValue", JStr "1.0.0")])];
           JObj [("key", JStr "telemetry.sdk.language");
                 ("value", JObj [("stringValue", JStr "go")])] ])]);
      ("scope_logs", JArr [JObj
         (("scope", JObj [("name", JStr "custom-logger"); ("version", JStr "1.0")])
          :: log_records)]) ]])].

(** ** Reading a document back *)

(** The program writes documents and reads none back.  What follows is
    what [json.Unmarshal] reads from a document into the struct types
    above, by the same tags: a field takes the value under its key, and
    keeps its zero value when the key is absent or its value is [null]. *)

Definition mismatch {A : Type} (goType : string) : result A :=
  Err ("json: cannot unmarshal into Go value of type " ++ goType).

(** The value under [key] decoded by [dec], or [zero]. *)
Definition lookup {A : Type} (key : string) (fields : list (string * JSON))
    (zero : result A) (dec : JSON -> result A) : result A :=
  (fix go (fs : list (string * JSON)) : result A :=
     match fs with
     | [] => zero
     | (k, j) :: rest =>
         if String.eqb k key
         then match j with JNull => zero | _ => dec j end
         else go rest
     end) fields.

Definition unmarshalString (j : JSON) : result string :=
  match j with JStr s => Ok s | _ => mismatch "string" end.

Definition unmarshalBool (j : JSON) : result bool :=
  match j with JBool b => Ok b | _ => mismatch "bool" end.

Definition unmarshalInt64 (j : JSON) : result Z :=
  match j with
  | JInt n => if (- 2 ^ 63 <=? n) && (n <? 2 ^ 63) then Ok n else mismatch "int64"
  | _ => mismatch "int64"
  end.

Definition unmarshalUint64 (j : JSON) : result Z :=
  match j with
  | JInt n => if (0 <=? n) && (n <? 2 ^ 64) then Ok n else mismatch "uint64"
  | _ => mismatch "uint64"
  end.

Definition unmarshalFloat64 (j : JSON) : result float :=
  match j with JFloat f => Ok f | _ => mismatch "float64" end.

Definition unmarshalBytes (j : JSON) : result (list byte) :=
  match j with JBytes b => Ok b | _ => mismatch "[]uint8" end.

(** A pointer: the address of the decoded value. *)
Definition unmarshalPtr {A : Type} (dec : JSON -> result A) (j : JSON)
    : result (option A) :=
  x <- dec j ;; Ok (Some x).

(** A slice: a list for a field tagged [omitempty], where nil and empty
    are one, and in general nil or a list. *)
Definition unmarshalList {A : Type} (dec : JSON -> result A) (j : JSON)
    : result (list A) :=
  match j with
  | JArr items => traverse dec items
  | _ => mismatch "slice"
  end.

Definition unmarshalSlice {A : Type} (dec : JSON -> result A) (j : JSON)
    : result (option (list A)) :=
  l <- unmarshalList dec j ;; Ok (Some l).

Fixpoint unmarshalAttributeValue (j : JSON) : result AttributeValue :=
  match j with
  | JObj fields =>
      s <- lookup "stringValue" fields (Ok None) (unmarshalPtr unmarshalString) ;;
      b <- lookup "boolValue" fields (Ok None) (unmarshalPtr unmarshalBool) ;;
      i <- lookup "intValue" fields (Ok None) (unmarshalPtr unmarshalInt64) ;;
      d <- lookup "doubleValue" fields (Ok None) (unmarshalPtr unmarshalFloat64) ;;
      a <- lookup "arrayValue" fields (Ok None) (unmarshalPtr unmarshalArrayValue) ;;
      k <- lookup "kvlistValue" fields (Ok None) (unmarshalPtr unmarshalKvlistValue) ;;
      bs <- lookup "bytesValue" fields (Ok []) unmarshalBytes ;;
      Ok (mkAttributeValue s b i d a k bs)
  | _ => mismatch "AttributeValue"
  end
with unmarshalArrayValue (j : JSON) : result ArrayValue :=
  match j with
  | JObj fields =>
      vs <- lookup "values" fields (Ok None) (unmarshalSlice unmarshalAttributeValue) ;;
      Ok (mkArrayValue vs)
  | _ => mismatch "ArrayValue"
  end
with unmarshalKvlistValue (j : JSON) : result KvlistValue :=
  match j with
  | JObj fields =>
      vs <- lookup "values" fields (Ok None) (unmarshalSlice unmarshalKeyValue) ;;
      Ok (mkKvlistValue vs)
  | _ => mismatch "KvlistValue"
  end
with unmarshalKeyValue (j : JSON) : result KeyValue :=
  match j with
  | JObj fields =>
      key <- lookup "key" fields (Ok EmptyString) unmarshalString ;;
      v <- lookup "value" fields (Ok unset) unmarshalAttributeValue ;;
      Ok (mkKeyValue key v)
  | _ => mismatch "KeyValue"
  end.

Definition unmarshalResource (j : JSON) : result Resource :=
  match j with
  | JObj fields =>
      attrs <- lookup "attributes" fields (Ok None) (unmarshalSlice unmarshalKeyValue) ;;
      Ok (mkResource attrs)
  | _ => mismatch "Resource"
  end.

Definition unmarshalScope (j : JSON) : result Scope :=
  match j with
  | JObj fields =>
      name <- lookup "name" fields (Ok EmptyString) unmarshalString ;;
      version <- lookup "version" fields (Ok EmptyString) unmarshalString ;;
      Ok (mkScope name version)
  | _ => mismatch "Scope"
  end.

Definition unmarshalLogRecord (j : JSON) : result LogRecord :=
  match j with
  | JObj fields =>
      t <- lookup "timeUnixNano" fields (Ok 0) unmarshalUint64 ;;
      text <- lookup "severityText" fields (Ok EmptyString) unmarshalString ;;
      number <- lookup "severityNumber" fields (Ok 0) unmarshalInt64 ;;
      body <- lookup "body" fields (Ok unset) unmarshalAttributeValue ;;
      attrs <- lookup "attributes" fields (Ok []) (unmarshalList unmarshalKeyValue) ;;
      Ok (mkLogRecord t text number body attrs)
  | _ => mismatch "LogRecord"
  end.

Definition unmarshalScopeLogs (j : JSON) : result ScopeLogs :=
  match j with
  | JObj fields =>
      s <- lookup "scope" fields (Ok (mkScope EmptyString EmptyString)) unmarshalScope ;;
      records <- lookup "log_records" fields (Ok []) (unmarshalList unmarshalLogRecord) ;;
      Ok (mkScopeLogs s records)
  | _ => mismatch "ScopeLogs"
  end.

Definition unmarshalResourceLogs (j : JSON) : result ResourceLogs :=
  match j with
  | JObj fields =>
      r <- lookup "resource" fields (Ok (mkResource None)) unmarshalResource ;;
      sl <- lookup "scope_logs" fields (Ok []) (unmarshalList unmarshalScopeLogs) ;;
      Ok (mkResourceLogs r sl)
  | _ => mismatch "ResourceLogs"
  end.

Definition unmarshalPayload (j : JSON) : result (list ResourceLogs) :=
  match j with
  | JObj fields =>
      lookup "resourceLogs" fields (Ok []) (unmarshalList unmarshalResourceLogs)
  | _ => mismatch "map[string][]ResourceLogs"
  end.

(** The records of a payload, in order. *)
Definition records_of (resourceLogs : list ResourceLogs) : list LogRecord :=
  flat_map (fun r => flat_map LogRecords (ResourceLogs_ScopeLogs r)) resourceLogs.

(** ** What a document can hold *)

(** A string that [json.Marshal] writes as it is. *)
Definition valid_utf8 (s : string) : bool := String.eqb (toValidUTF8 s) s.

(** A float64 that has a JSON number. *)
Definition finite (f : float) : bool :=
  negb (PrimFloat.is_nan f) && negb (PrimFloat.is_infinity f).

Definition int64b (n : Z) : bool := (- 2 ^ 63 <=? n) && (n <? 2 ^ 63).
Definition uint64b (n : Z) : bool := (0 <=? n) && (n <? 2 ^ 64).

Definition holds {A : Type} (p : A -> bool) (o : option A) : bool :=
  match o with
  | Some x => p x
  | None => true
  end.

(** A value all of whose strings are valid UTF-8, whose numbers are
    finite, and whose integers are within their Go types. *)
Fixpoint representable (v : AttributeValue) : bool :=
  holds valid_utf8 (StringValue v) && holds int64b (IntValue v)
  && holds finite (DoubleValue v)
  && holds representableArray (ArrayVal v)
  && holds representableKvlist (KvlistVal v)
with representableArray (a : ArrayValue) : bool :=
  holds (forallb representable) (ArrayValue_Values a)
with representableKvlist (k : KvlistValue) : bool :=
  holds (forallb representableKeyValue) (KvlistValue_Values k)
with representableKeyValue (kv : KeyValue) : bool :=
  valid_utf8 (Key kv) && representable (Value kv).

Definition representableLogRecord (r : LogRecord) : bool :=
  uint64b (TimeUnixNano r) && valid_utf8 (SeverityText r)
  && int64b (SeverityNumber r) && representable (Body r)
  && forallb representableKeyValue (Attributes r).

(** ** Writing and reading back *)

(** [x] is written as a document, not [null], that reads back as [x]. *)
Definition round_trip {A : Type} (enc : A -> result JSON) (dec : JSON -> result A)
    (x : A) : Prop :=
  exists j, enc x = Ok j /\ j <> JNull /\ dec j = Ok x.

Definition opt_all {A : Type} (P : A -> Prop) (o : option A) : Prop :=
  match o with
  | Some x => P x
  | None => True
  end.

Definition AttributeValue_round_trip (v : AttributeValue) : Prop :=
  representable v = true ->
  round_trip marshalAttributeValue unmarshalAttributeValue v.

Definition ArrayValue_round_trip (a : ArrayValue) : Prop :=
  representableArray a = true ->
  round_trip marshalArrayValue unmarshalArrayValue a.

Definition KvlistValue_round_trip (k : KvlistValue) : Prop :=
  representableKvlist k = true ->
  round_trip marshalKvlistValue unmarshalKvlistValue k.

Definition KeyValue_round_trip (kv : KeyValue) : Prop :=
  representableKeyValue kv = true ->
  round_trip marshalKeyValue unmarshalKeyValue kv.

(** ** Induction over attribute values *)

Section AttributeValue_induction.
Variable P : AttributeValue -> Prop.
Variable PA : ArrayValue -> Prop.
Variable PK : KvlistValue -> Prop.
Variable PKV : KeyValue -> Prop.
Hypothesis HAV : forall s b i d a k bs,
  opt_all PA a -> opt_all PK k -> P (mkAttributeValue s b i d a k bs).
Hypothesis HA : forall vs, opt_all (Forall P) vs -> PA (mkArrayValue vs).
Hypothesis HK : forall vs, opt_all (Forall PKV) vs -> PK (mkKvlistValue vs).
Hypothesis HKV : forall key v, P v -> PKV (mkKeyValue key v).

Fixpoint AttributeValue_induction (v : AttributeValue) : P v :=
  match v with
  | mkAttributeValue s b i d a k bs =>
      HAV s b i d a k bs
        match a return opt_all PA a with
        | Some x => ArrayValue_induction x
        | None => I
        end
        match k return opt_all PK k with
        | Some x => KvlistValue_induction x
        | None => I
        end
  end
with ArrayValue_induction (a : ArrayValue) : PA a :=
  match a with
  | mkArrayValue vs =>
      HA vs
        match vs return opt_all (Forall P) vs with
        | Some l =>
            (fix all (l : list AttributeValue) : Forall P l :=
               match l with
               | [] => Forall_nil P
               | x :: rest => Forall_cons x (AttributeValue_induction x) (all rest)
               end) l
        | None => I
        end
  end
with KvlistValue_induction (k : KvlistValue) : PK k :=
  match k with
  | mkKvlistValue vs =>
      HK vs
        match vs return opt_all (Forall PKV) vs with
        | Some l =>
            (fix all (l : list KeyValue) : Forall PKV l :=
               match l with
               | [] => Forall_nil PKV
               | x :: rest => Forall_cons x (KeyValue_induction x) (all rest)
               end) l
        | None => I
        end
  end
with KeyValue_induction (kv : KeyValue) : PKV kv :=
  match kv with
  | mkKeyValue key v => HKV key v (AttributeValue_induction v)
  end.
End AttributeValue_induction.

(** ** The document as described *)

(** The envelope read off its description, with no encoder in it: an
    object with a field for each variant that is set and for no other;
    a key/value pair with its key and its value; a record with its four
    fields and, when it has attributes, [attributes]; a list that is
    left out when it is empty.  These are compared with the documents
    the encoders of the program write. *)

(** A list field that is left out when the list is empty. *)
Definition omit_empty (key : string) (items : list JSON) : list (string * JSON) :=
  match items with
  | [] => []
  | _ :: _ => [(key, JArr items)]
  end.

(** A list field that is written in every case, [null] for a nil slice. *)
Definition list_or_null (items : option (list JSON)) : JSON :=
  match items with
  | Some js => JArr js
  | None => JNull
  end.

Fixpoint wire_value (v : AttributeValue) : JSON :=
  JObj (opt_field "stringValue"
          (option_map (fun s => JStr (toValidUTF8 s)) (StringValue v))
        ++ opt_field "boolValue" (option_map JBool (BoolValue v))
        ++ opt_field "intValue" (option_map JInt (IntValue v))
        ++ opt_field "doubleValue" (option_map JFloat (DoubleValue v))
        ++ opt_field "arrayValue" (option_map wire_array (ArrayVal v))
        ++ opt_field "kvlistValue" (option_map wire_kvlist (KvlistVal v))
        ++ match BytesValue v with
           | [] => []
           | b => [("bytesValue", JBytes b)]
           end)
with wire_array (a : ArrayValue) : JSON :=
  JObj [("values", list_or_null (option_map (map wire_value) (ArrayValue_Values a)))]
with wire_kvlist (k : KvlistValue) : JSON :=
  JObj [("values", list_or_null (option_map (map wire_keyvalue) (KvlistValue_Values k)))]
with wire_keyvalue (kv : KeyValue) : JSON :=
  JObj [("key", JStr (toValidUTF8 (Key kv))); ("value", wire_value (Value kv))].

Definition wire_record (r : LogRecord) : JSON :=
  JObj ([ ("timeUnixNano", JInt (TimeUnixNano r));
          ("severityText", JStr (toValidUTF8 (SeverityText r)));
          ("severityNumber", JInt (SeverityNumber r));
          ("body", wire_value (Body r)) ]
        ++ omit_empty "attributes" (map wire_keyvalue (Attributes r))).

Definition wire_resource (r : Resource) : JSON :=
  JObj (omit_empty "attributes"
          (map wire_keyvalue
             match Resource_Attributes r with
             | Some attributes => attributes
             | None => []
             end)).

Definition wire_scope (s : Scope) : JSON :=
  JObj [("name", JStr (toValidUTF8 (Name s)));
        ("version", JStr (toValidUTF8 (Version s)))].

(** The envelope of a batch, the list of the scopes under [scope_key]. *)
Definition wire_document (scope_key : string) (b : list LogRecord) : JSON :=
  JObj [("resourceLogs", JArr [JObj
    [ ("resource", wire_resource resource);
      (scope_key, JArr [JObj
         (("scope", wire_scope scope)
          :: omit_empty "log_records" (map wire_record b))]) ]])].

(** An encoder writes what [w] describes when, on every value it
    encodes, its document is that of [w]. *)
Definition writes {A : Type} (enc : A -> result JSON) (w : A -> JSON) (x : A) : Prop :=
  forall j, enc x = Ok j -> j = w x.

(** ** The program of [main], and other runs *)

Definition demo_sender : LogSender := NewLogSender "http://localhost:4318" 10.

(** A network that builds every request and answers each with the given
    status and body. *)
Definition answering (status : Z) (body : result string) : Network :=
  mkNetwork (fun _ => None) (fun _ => Ok (mkResponse status body)).

Definition demo_clock : Z := 1700000000000000000.

(** The two calls of [main] (lines 292-298), the map of the second in one
    of the orders [range] may visit it. *)
Definition demo_started : Action :=
  ALog demo_clock "INFO" 9 "Application started" None.

Definition demo_retry : Action :=
  ALog (demo_clock + 1) "WARN" 13 "Retry attempt"
    (Some [ ("retry.count", GoInt 3); ("timeout", GoFloat64 30.5%float);
            ("enabled", GoBool true); ("user", GoString "john_doe") ]).

(** Fifteen calls and fifteen receives, interleaved. *)
Definition demo_fifteen : list Action :=
  [demo_started; demo_retry] ++ repeat demo_started 10
  ++ repeat (AEntry (answering 200 (Ok ""))) 11
  ++ repeat demo_retry 3
  ++ repeat (AEntry (answering 200 (Ok ""))) 4.


(** Fifteen calls, then twelve receives, a tick, three receives and a
    tick. *)
Definition demo_late : list Action :=
  repeat (AEntry (answering 200 (Ok ""))) 12 ++ [ATick (answering 200 (Ok ""))]
  ++ repeat (AEntry (answering 200 (Ok ""))) 3 ++ [ATick (answering 200 (Ok ""))].

(** A system whose queue is full. *)
Definition demo_full : System :=
  mkSystem
    (mkLogSender "http://localhost:4318" 10
       (mkChan 1000 (repeat (new_entry demo_clock "INFO" 9 "Application started" None) 1000)))
    [] [] [].

Definition demo_batch : list LogRecord := logged [demo_started; demo_retry].

Definition demo_document : JSON :=
  match marshalPayload (payload demo_batch) with
  | Ok jsonData => jsonData
  | Err _ => JNull
  end.

(** ** Records in flight *)

(** The records of the batches sent so far, in the order sent. *)
Definition sent (s : System) : list LogRecord := List.concat (map snd (flushes s)).

(** The records the program has taken and not lost: those sent, those in
    the batch of the worker and those in the queue, oldest first. *)
Definition held (s : System) : list LogRecord :=
  (sent s ++ batch s ++ chan_buf (logQueue (sender s)))%list.

(** The line [Log] prints when it drops a record, and the number of such
    lines among some effects. *)
Definition is_drop (e : Effect) : bool :=
  match e with
  | LogLine msg => String.eqb msg "Log queue full, dropping log entry"
  | HttpDo _ => false
  end.

Definition dropped (l : list Effect) : nat := List.length (filter is_drop l).

Definition is_log (a : Action) : bool :=
  match a with ALog _ _ _ _ _ => true | _ => false end.

(** ** The size of a batch *)

(** The state of a worker with a threshold [size] of at least 1: its
    batch is below the threshold, and every batch sent held at least one
    record and at most [size], exactly [size] when sent by the size test. *)
Definition within_threshold (size : Z) (s : System) : Prop :=
  batchSize (sender s) = size /\
  Z.of_nat (List.length (batch s)) < size /\
  Forall (fun f => (1 <= List.length (snd f))%nat /\
                   Z.of_nat (List.length (snd f)) <= size /\
                   (fst f = BySize -> Z.of_nat (List.length (snd f)) = size))
         (flushes s).


(** The requests made so far are no more than the batches sent, and each
    is a POST to the log path of the endpoint. *)
Definition requests_in_order (ep : string) (s : System) : Prop :=
  endpoint (sender s) = ep /\
  (List.length (posts (effects s)) <= List.length (flushes s))%nat /\
  Forall (fun req => Method req = "POST" /\ URL req = ep ++ "/v1/logs")
         (posts (effects s)).

(** The state of a worker that has taken [n] records from the queue:
    they are the records sent and those in its batch, and no batch sent
    was empty. *)
Definition taken (n : nat) (s : System) : Prop :=
  (List.length (sent s) + List.length (batch s))%nat = n /\
  Forall (fun f => snd f <> []) (flushes s).

(** ** Values that have a document *)

(** A value none of whose doubles, at any depth, is NaN or infinite. *)
Fixpoint finite_value (v : AttributeValue) : bool :=
  holds finite (DoubleValue v)
  && holds finite_array (ArrayVal v)
  && holds finite_kvlist (KvlistVal v)
with finite_array (a : ArrayValue) : bool :=
  holds (forallb finite_value) (ArrayValue_Values a)
with finite_kvlist (k : KvlistValue) : bool :=
  holds (forallb finite_keyvalue) (KvlistValue_Values k)
with finite_keyvalue (kv : KeyValue) : bool :=
  finite_value (Value kv).

Definition finite_record (r : LogRecord) : bool :=
  finite_value (Body r) && forallb finite_keyvalue (Attributes r).

(** A host value that is no NaN and no infinite float64. *)
Definition finite_host (v : GoValue) : bool :=
  match v with
  | GoFloat64 f => finite f
  | _ => true
  end.

(** The key under which an attribute of each host type is written. *)
Definition attribute_key (v : GoValue) : string :=
  match v with
  | GoString _ | GoElse _ => "stringValue"
  | GoInt _ | GoInt64 _ => "intValue"
  | GoFloat64 _ => "doubleValue"
  | GoBool _ => "boolValue"
  end.

(** A leaf of a document that is a string, a number or a boolean. *)
Definition scalar (j : JSON) : bool :=
  match j with
  | JBool _ | JInt _ | JFloat _ | JStr _ => true
  | _ => false
  end.

(** [enc x] succeeds when [ok x] holds and fails otherwise. *)
Definition succeeds_iff {A B : Type} (ok : A -> bool) (enc : A -> result B)
    (x : A) : Prop :=
  if ok x then exists j, enc x = Ok j else exists e, enc x = Err e.

(** * Properties *)

(** ** Integers *)

Lemma int64_in_range (x : Z) : in_int64 x -> int64 x = x.
Proof.
  unfold in_int64, int64. intros H.
  rewrite Z.mod_small by lia. lia.
Qed.

Lemma uint64_in_range (x : Z) : in_uint64 x -> uint64 x = x.
Proof. unfold in_uint64, uint64. intros H. now apply Z.mod_small. Qed.

Lemma uint64_zero (x : Z) : in_int64 x -> uint64 x = 0 -> x = 0.
Proof.
  unfold in_int64, uint64. intros H E.
  destruct (Z.neg_nonneg_cases x) as [Hneg | Hpos].
  - assert (Hx : x mod 2 ^ 64 = x + 2 ^ 64).
    { symmetry. apply Z.mod_unique with (q := -1); lia. }
    lia.
  - rewrite Z.mod_small in E by lia. exact E.
Qed.

(** ** The conversion *)

Lemma convertToAttributeValue_populated (v : GoValue) :
  populated (convertToAttributeValue v) = 1%nat.
Proof. destruct v; reflexivity. Qed.

(** C3, as the code has it.  The type switch names string, int, int64,
    float64 and bool: a string yields the String variant with that
    string, an int (within the range of int64, as every int is) and an
    int64 the Int64 variant with the same number, a float64 the Double
    variant and a bool the Bool variant.  A value of any other type,
    the other integer types among them, yields the String variant
    holding the text [%v] prints for it.  The function is total. *)
Theorem convertToAttributeValue_variant :
  (forall s, variant_of (convertToAttributeValue (GoString s)) = Some (VString s)) /\
  (forall n, in_int64 n ->
     variant_of (convertToAttributeValue (GoInt n)) = Some (VInt64 n)) /\
  (forall n, variant_of (convertToAttributeValue (GoInt64 n)) = Some (VInt64 n)) /\
  (forall f, variant_of (convertToAttributeValue (GoFloat64 f)) = Some (VDouble f)) /\
  (forall b, variant_of (convertToAttributeValue (GoBool b)) = Some (VBool b)) /\
  (forall o, variant_of (convertToAttributeValue (GoElse o))
             = Some (VString (Sprintf_v o))).
Proof.
  repeat split; intros; try reflexivity.
  cbn [convertToAttributeValue]. rewrite int64_in_range by assumption. reflexivity.
Qed.

(** C3 as stated fails on a signed 32-bit integer: [int32(5)] reaches the
    default case and comes out as the string ["5"], not as an Int64. *)
Lemma convertToAttributeValue_int32 :
  variant_of (convertToAttributeValue (GoElse (GoInt32 5))) = Some (VString "5") /\
  variant_of (convertToAttributeValue (GoElse (GoInt32 5))) <> Some (VInt64 5).
Proof. split; [reflexivity | discriminate]. Qed.

(** ** Log *)

Lemma new_entry_one_of now severityText severityNumber message attrs :
  one_of_record (new_entry now severityText severityNumber message attrs).
Proof.
  split; [reflexivity |].
  destruct attrs as [attrs |]; cbn [new_entry Attributes]; [| constructor].
  apply Forall_forall. intros kv Hin.
  apply in_map_iff in Hin. destruct Hin as [[k v] [<- _]].
  apply convertToAttributeValue_populated.
Qed.

(** C10, as the code has it.  The record [Log] builds has the String
    variant holding the message as its body, never a structured or an
    unset one.  Its time is the reading of the clock converted to uint64:
    the reading itself from the epoch on, the reading plus 2^64 before
    it, and 0, the value that stands for an unknown time, when and only
    when the clock reads 0.  When the queue has room this is the record
    that is queued. *)
Theorem Log_entry now severityText severityNumber message attrs (s : System) :
  in_int64 now ->
  let entry := new_entry now severityText severityNumber message attrs in
  variant_of (Body entry) = Some (VString message) /\
  TimeUnixNano entry = uint64 now /\
  (TimeUnixNano entry = 0 <-> now = 0) /\
  (0 <= now -> TimeUnixNano entry = now) /\
  (now < 0 -> TimeUnixNano entry = now + 2 ^ 64) /\
  ((List.length (chan_buf (logQueue (sender s))) < chan_cap (logQueue (sender s)))%nat ->
   chan_buf (logQueue (sender (Log now severityText severityNumber message attrs s)))
   = (chan_buf (logQueue (sender s)) ++ [entry])%list).
Proof.
  intros Hrange entry.
  split; [reflexivity |]. split; [reflexivity |]. split; [| split; [| split]].
  - split.
    + intros E. now apply uint64_zero.
    + intros ->. reflexivity.
  - intros Hpos. apply uint64_in_range. unfold in_int64 in Hrange.
    unfold in_uint64. lia.
  - intros Hneg. subst entry. cbn [new_entry TimeUnixNano]. unfold uint64.
    unfold in_int64 in Hrange.
    symmetry. apply Z.mod_unique with (q := -1); lia.
  - intros Hroom. unfold Log, try_send. fold entry.
    apply Nat.ltb_lt in Hroom. rewrite Hroom. reflexivity.
Qed.

(** The first call of [main], with the clock at [demo_clock]. *)
Lemma Log_entry_demo :
  variant_of (Body (new_entry demo_clock "INFO" 9 "Application started" None))
  = Some (VString "Application started") /\
  TimeUnixNano (new_entry demo_clock "INFO" 9 "Application started" None)
  = demo_clock.
Proof.
  destruct (Log_entry demo_clock "INFO" 9 "Application started" None (Start demo_sender))
    as (Hbody & _ & _ & Hclock & _).
  - unfold in_int64, demo_clock. lia.
  - split; [exact Hbody | apply Hclock; unfold demo_clock; lia].
Defined.

(** C10 as stated fails when the clock reads the epoch itself: the
    reading is 0, and so is the time of the record. *)
Lemma Log_entry_at_epoch :
  in_int64 0 /\
  TimeUnixNano (new_entry 0 "INFO" 9 "Application started" None) = 0.
Proof. split; [unfold in_int64; lia | reflexivity]. Qed.

(** C2.  When the queue holds as many records as its capacity, [Log]
    returns the state it was given but for one line on the diagnostic
    log: the queue is as it was, the new record is in none of its
    places, and nothing else is reported. *)
Theorem Log_queue_full now severityText severityNumber message attrs (s : System) :
  (chan_cap (logQueue (sender s)) <= List.length (chan_buf (logQueue (sender s))))%nat ->
  Log now severityText severityNumber message attrs s
  = mkSystem (sender s) (batch s)
      (effects s ++ [LogLine "Log queue full, dropping log entry"]) (flushes s).
Proof.
  intros Hfull. unfold Log, try_send.
  apply Nat.ltb_ge in Hfull. rewrite Hfull. reflexivity.
Qed.

(** A call of [Log] on a queue that holds a thousand records. *)
Lemma Log_queue_full_demo :
  Log (demo_clock + 2) "WARN" 13 "Retry attempt" None demo_full
  = mkSystem (sender demo_full) []
      [LogLine "Log queue full, dropping log entry"] [].
Proof.
  apply (Log_queue_full (demo_clock + 2) "WARN" 13 "Retry attempt" None demo_full).
  cbn [demo_full sender logQueue chan_cap chan_buf].
  rewrite repeat_length. apply le_n.
Defined.

(** ** Runs of the worker *)

Lemma skipn_cons_inv {A : Type} (k : nat) (l : list A) (x : A) (rest : list A) :
  skipn k l = x :: rest ->
  (k < List.length l)%nat /\ firstn (S k) l = (firstn k l ++ [x])%list /\
  skipn (S k) l = rest.
Proof.
  revert l. induction k as [| k IH]; intros l E.
  - destruct l as [| y l]; [discriminate |]. cbn in E. injection E as -> ->.
    cbn. repeat split. lia.
  - destruct l as [| y l]; [discriminate |]. cbn [skipn] in E.
    destruct (IH l E) as (Hlt & Hfirst & Hskip).
    repeat split.
    + cbn [List.length]. lia.
    + change (firstn (S (S k)) (y :: l)) with (y :: firstn (S k) l).
      rewrite Hfirst. reflexivity.
    + exact Hskip.
Qed.

Lemma after_Log ep k recs s now severityText severityNumber message attrs :
  after ep k recs s -> (List.length recs < 1000)%nat ->
  after ep k (recs ++ [new_entry now severityText severityNumber message attrs])
    (Log now severityText severityNumber message attrs s).
Proof.
  intros (Hk & Hsender & Hbatch & Hflushes) Hlen.
  unfold Log, try_send. rewrite Hsender. cbn [logQueue chan_buf chan_cap].
  assert (Hroom : (List.length (skipn k recs) <? 1000)%nat = true).
  { apply Nat.ltb_lt. rewrite length_skipn. lia. }
  rewrite Hroom. unfold after. cbn [sender batch flushes].
  rewrite length_app. cbn [List.length]. split; [lia |].
  unfold with_logQueue. cbn [endpoint batchSize].
  rewrite skipn_app, !firstn_app.
  replace (k - List.length recs)%nat with 0%nat by lia.
  cbn [skipn firstn]. rewrite !app_nil_r.
  repeat split.
  - exact Hbatch.
  - rewrite Hflushes. destruct (k <? 10)%nat eqn:Hk10; [reflexivity |].
    apply Nat.ltb_ge in Hk10.
    replace (10 - List.length recs)%nat with 0%nat by lia.
    cbn [firstn]. rewrite app_nil_r. reflexivity.
Qed.

Lemma after_entry ep k recs s net s' :
  after ep k recs s -> (List.length recs < 20)%nat ->
  on_entry net s = Some s' ->
  after ep (S k) recs s'.
Proof.
  intros (Hk & Hsender & Hbatch & Hflushes) Hk20.
  unfold on_entry, receive. rewrite Hsender. cbn [logQueue chan_buf chan_cap].
  destruct (skipn k recs) as [| entry rest] eqn:Hq; [discriminate |].
  destruct (skipn_cons_inv _ _ _ _ Hq) as (Hlt & Hfirst & Hskip).
  assert (Hk20' : (S k < 20)%nat) by lia.
  unfold with_logQueue. cbn [endpoint batchSize logQueue].
  assert (Hlen : List.length (firstn k recs) = k) by (rewrite length_firstn; lia).
  destruct (k <? 10)%nat eqn:Hk10.
  - apply Nat.ltb_lt in Hk10. rewrite Hbatch, <- Hfirst.
    rewrite length_firstn, Nat.min_l by lia.
    remember (firstn (S k) recs) as taken eqn:Htaken.
    destruct (Z.of_nat (S k) >=? 10) eqn:Hge; intros [= <-];
      unfold after, flush; cbn [sender batch flushes]; rewrite Hflushes, Hskip.
    + apply Z.geb_le in Hge.
      assert (Hlt10 : (S k <? 10)%nat = false) by (apply Nat.ltb_ge; lia).
      assert (E : S k = 10%nat) by lia.
      rewrite Hlt10, Htaken, E.
      assert (Hnil : skipn 10 (firstn 10 recs) = []).
      { apply length_zero_iff_nil. rewrite length_skipn, length_firstn. lia. }
      rewrite Hnil. repeat split. lia.
    + rewrite Z.geb_leb in Hge. apply Z.leb_gt in Hge.
      assert (Hlt10 : (S k <? 10)%nat = true) by (apply Nat.ltb_lt; lia).
      rewrite Hlt10, Htaken. repeat split. lia.
  - apply Nat.ltb_ge in Hk10. rewrite Hbatch.
    assert (Hb : (skipn 10 (firstn k recs) ++ [entry])%list
                 = skipn 10 (firstn (S k) recs)).
    { rewrite Hfirst, skipn_app, Hlen.
      replace (10 - k)%nat with 0%nat by lia. reflexivity. }
    rewrite Hb.
    assert (Hge : (Z.of_nat (List.length (skipn 10 (firstn (S k) recs))) >=? 10) = false).
    { rewrite Z.geb_leb. apply Z.leb_gt. rewrite length_skipn, length_firstn. lia. }
    rewrite Hge. intros [= <-]. unfold after. cbn [sender batch flushes].
    assert (Hlt10 : (S k <? 10)%nat = false) by (apply Nat.ltb_ge; lia).
    rewrite Hlt10, Hskip. repeat split; try lia. exact Hflushes.
Qed.

Lemma run_without_tick ep schedule : forall k recs s s',
  after ep k recs s ->
  no_tick schedule ->
  (List.length recs + List.length (logged schedule) < 20)%nat ->
  run s schedule = Some s' ->
  after ep (k + entries schedule) (recs ++ logged schedule) s'.
Proof.
  induction schedule as [| a schedule IH]; intros k recs s s' Hs Hno Hlen Hrun.
  - cbn in Hrun. injection Hrun as <-. cbn [entries logged].
    rewrite Nat.add_0_r, app_nil_r. exact Hs.
  - unfold no_tick in Hno. cbn [forallb] in Hno.
    apply andb_true_iff in Hno. destruct Hno as [Ha Hno].
    destruct a as [now sev num msg attrs | net | net]; [| | discriminate].
    + cbn [run step] in Hrun. cbn [logged entries] in *.
      cbn [List.length] in Hlen.
      replace (recs ++ new_entry now sev num msg attrs :: logged schedule)%list
        with ((recs ++ [new_entry now sev num msg attrs]) ++ logged schedule)%list
        by (rewrite <- app_assoc; reflexivity).
      apply IH with (s := Log now sev num msg attrs s); try assumption.
      * apply after_Log; [assumption | lia].
      * rewrite length_app. cbn [List.length]. lia.
    + cbn [run step] in Hrun. cbn [logged entries] in *.
      destruct (on_entry net s) as [s1 |] eqn:Hstep; [| discriminate].
      replace (k + S (entries schedule))%nat with (S k + entries schedule)%nat by lia.
      apply IH with (s := s1); try assumption.
      apply after_entry with (s := s) (net := net); [assumption | lia | assumption].
Qed.

Lemma after_Start ep : after ep 0 [] (Start (NewLogSender ep 10)).
Proof. unfold after. cbn. repeat split. lia. Qed.

Lemma on_tick_empty net s : batch s = [] -> on_tick net s = s.
Proof. unfold on_tick. intros ->. reflexivity. Qed.

Lemma on_tick_nonempty net s :
  batch s <> [] -> on_tick net s = flush ByTimer net (sender s) (batch s) s.
Proof.
  unfold on_tick. destruct (batch s) as [| r rest]; [congruence | reflexivity].
Qed.

(** C1, as the code has it.  A sender with threshold 10 is started;
    fifteen records are logged and the worker takes all fifteen from the
    queue, the calls and the receives interleaved in any way and no tick
    among them.  Then the worker has called [sendBatch] once, from the
    size test, with the first ten records in the order logged; the other
    five are in its batch; and the next tick makes the second call, with
    those five in order, and leaves the batch and the queue empty. *)
Theorem fifteen_records_two_flushes ep schedule s :
  no_tick schedule ->
  List.length (logged schedule) = 15%nat ->
  entries schedule = 15%nat ->
  run (Start (NewLogSender ep 10)) schedule = Some s ->
  flushes s = [(BySize, firstn 10 (logged schedule))] /\
  batch s = skipn 10 (logged schedule) /\
  List.length (batch s) = 5%nat /\
  forall net,
    flushes (on_tick net s)
    = [(BySize, firstn 10 (logged schedule)); (ByTimer, skipn 10 (logged schedule))] /\
    batch (on_tick net s) = [] /\
    chan_buf (logQueue (sender (on_tick net s))) = [].
Proof.
  intros Hno Hlen Hentries Hrun.
  destruct (run_without_tick ep schedule 0 [] _ s (after_Start ep) Hno)
    as (_ & Hsender & Hbatch & Hflushes); [cbn; lia | exact Hrun |].
  cbn [app Nat.add] in *. rewrite Hentries in *.
  change (15 <? 10)%nat with false in *.
  assert (Hall : firstn 15 (logged schedule) = logged schedule).
  { apply firstn_all2. lia. }
  rewrite Hall in Hbatch.
  assert (Hfive : List.length (batch s) = 5%nat).
  { rewrite Hbatch, length_skipn. lia. }
  repeat split; try assumption.
  - rewrite on_tick_nonempty by (intros E; rewrite E in Hfive; discriminate).
    unfold flush. cbn [flushes]. rewrite Hflushes, Hbatch. reflexivity.
  - rewrite on_tick_nonempty by (intros E; rewrite E in Hfive; discriminate).
    reflexivity.
  - rewrite on_tick_nonempty by (intros E; rewrite E in Hfive; discriminate).
    unfold flush. cbn [sender]. rewrite Hsender. cbn [logQueue chan_buf].
    apply length_zero_iff_nil. rewrite length_skipn. lia.
Qed.

(** Twelve calls, eleven receives, three calls and four receives. *)
Lemma fifteen_records_two_flushes_demo :
  exists s,
    run (Start demo_sender) demo_fifteen = Some s /\
    flushes s = [(BySize, firstn 10 (logged demo_fifteen))] /\
    flushes (on_tick (answering 200 (Ok "")) s)
    = [(BySize, firstn 10 (logged demo_fifteen));
       (ByTimer, skipn 10 (logged demo_fifteen))].
Proof.
  destruct (run (Start demo_sender) demo_fifteen) as [s |] eqn:Hrun;
    [| vm_compute in Hrun; discriminate Hrun].
  exists s. split; [reflexivity |].
  destruct (fifteen_records_two_flushes "http://localhost:4318" demo_fifteen s)
    as (Hone & _ & _ & Htick);
    [reflexivity | reflexivity | reflexivity | exact Hrun |].
  split; [exact Hone | apply Htick].
Defined.

(** C1 as stated fails when a tick comes after the fifteenth call of
    [Log] and before the worker has taken the fifteenth record: no tick
    stands before the last call, and the worker sends three batches, of
    ten, two and three records. *)
Lemma fifteen_records_three_flushes :
  no_tick (repeat demo_started 15) /\
  List.length (logged (repeat demo_started 15)) = 15%nat /\
  exists s,
    run (Start demo_sender) (repeat demo_started 15 ++ demo_late) = Some s /\
    map fst (flushes s) = [BySize; ByTimer; ByTimer] /\
    map (fun f => List.length (snd f)) (flushes s) = [10; 2; 3]%nat /\
    batch s = [] /\ chan_buf (logQueue (sender s)) = [].
Proof.
  split; [reflexivity |]. split; [reflexivity |].
  eexists. split; [vm_compute; reflexivity |]. repeat split.
Qed.



(** ** sendBatch *)

Lemma prefix_append (p s : string) : prefix p (p ++ s) = true.
Proof.
  induction p as [| c p IH]; cbn.
  - destruct s; reflexivity.
  - destruct (ascii_dec c c) as [_ | Hneq]; [exact IH | congruence].
Qed.

(** The five ways through [sendBatch], each with what it prints and
    posts. *)
Lemma sendBatch_cases ls net b :
  let url := endpoint ls ++ "/v1/logs" in
  (exists e, marshalPayload (payload b) = Err e /\
     sendBatch ls net b
     = (EncodeFailure, [LogLine ("Error marshaling log batch: " ++ e)])) \/
  (exists j e, marshalPayload (payload b) = Ok j /\ url_error net url = Some e /\
     sendBatch ls net b
     = (RequestFailure, [LogLine ("Error creating request: " ++ e)])) \/
  (exists j e, marshalPayload (payload b) = Ok j /\ url_error net url = None /\
     Do net (post_request ls j) = Err e /\
     sendBatch ls net b
     = (TransportFailure,
        [HttpDo (post_request ls j); LogLine ("Error sending logs: " ++ e)])) \/
  (exists j resp line, marshalPayload (payload b) = Ok j /\ url_error net url = None /\
     Do net (post_request ls j) = Ok resp /\ 400 <= StatusCode resp /\
     sendBatch ls net b
     = (Rejected,
        [HttpDo (post_request ls j); LogLine line;
         LogLine ("Received status code: " ++ decimal (StatusCode resp))])) \/
  (exists j resp, marshalPayload (payload b) = Ok j /\ url_error net url = None /\
     Do net (post_request ls j) = Ok resp /\ StatusCode resp < 400 /\
     sendBatch ls net b
     = (Delivered, [HttpDo (post_request ls j); LogLine "Logs successfully sent"])).
Proof.
  intros url. unfold sendBatch, NewRequest. fold url.
  destruct (marshalPayload (payload b)) as [j | e]; [| left; eauto].
  right. destruct (url_error net url) as [e |]; [left; eauto |].
  right. cbv zeta. change (Header_Set _ _ _) with (post_request ls j).
  destruct (Do net (post_request ls j)) as [resp | e] eqn:HDo;
    [| left; exists j, e; repeat split; assumption].
  right. destruct (StatusCode resp >=? 400) eqn:Hge.
  - left. apply Z.geb_le in Hge.
    destruct (ResponseBody resp) as [text | e].
    + exists j, resp, ("Error response: " ++ text). repeat split; assumption.
    + exists j, resp, ("Failed to decode error response: " ++ e).
      repeat split; assumption.
  - right. rewrite Z.geb_leb in Hge. apply Z.leb_gt in Hge.
    exists j, resp. repeat split; assumption.
Qed.

Ltac same_answer :=
  repeat match goal with
  | H : exists _, _ |- _ => destruct H
  | H : _ /\ _ |- _ => destruct H
  | H : Ok _ = Ok _ |- _ => injection H as H; subst
  | H : Do ?net ?req = _, H' : Do ?net ?req = _ |- _ =>
      rewrite H in H'; try discriminate H'
  end;
  try discriminate; try lia.

(** C4, as the code has it.  A call of [sendBatch] ends in exactly one of
    five ways: the document cannot be written; else the request cannot be
    built; else the client returns an error; else the response has a
    status of 400 or more; else, whatever the status below 400, the batch
    counts as sent.  [sendBatch] calls [client.Do] at most once, so it
    tries no batch again (what the client does with the request, such as
    following a redirect, is the client's); and after the call the
    worker holds an empty batch and the sender it had, queue included,
    whatever the outcome. *)
Theorem sendBatch_outcome ls net b :
  let outcome := fst (sendBatch ls net b) in
  let url := endpoint ls ++ "/v1/logs" in
  (outcome = EncodeFailure <-> exists e, marshalPayload (payload b) = Err e) /\
  (outcome = RequestFailure <->
     exists j e, marshalPayload (payload b) = Ok j /\ url_error net url = Some e) /\
  (outcome = TransportFailure <->
     exists j e, marshalPayload (payload b) = Ok j /\ url_error net url = None /\
       Do net (post_request ls j) = Err e) /\
  (outcome = Rejected <->
     exists j resp, marshalPayload (payload b) = Ok j /\ url_error net url = None /\
       Do net (post_request ls j) = Ok resp /\ 400 <= StatusCode resp) /\
  (outcome = Delivered <->
     exists j resp, marshalPayload (payload b) = Ok j /\ url_error net url = None /\
       Do net (post_request ls j) = Ok resp /\ StatusCode resp < 400) /\
  (List.length (posts (snd (sendBatch ls net b))) <= 1)%nat /\
  (forall t s, batch (flush t net ls b s) = [] /\ sender (flush t net ls b s) = ls) /\
  (forall s, sender (on_tick net s) = sender s /\
             (batch s <> [] -> batch (on_tick net s) = [])).
Proof.
  intros outcome url. subst outcome.
  assert (Htick : forall s, sender (on_tick net s) = sender s /\
                            (batch s <> [] -> batch (on_tick net s) = [])).
  { intros s. split.
    - unfold on_tick. destruct (0 <? List.length (batch s))%nat; reflexivity.
    - intros Hne. rewrite on_tick_nonempty by assumption. reflexivity. }
  destruct (sendBatch_cases ls net b)
    as [(e & Hm & ->) | [(j & e & Hm & Hu & ->) | [(j & e & Hm & Hu & Hd & ->)
       | [(j & resp & line & Hm & Hu & Hd & Hs & ->)
       | (j & resp & Hm & Hu & Hd & Hs & ->)]]]];
    fold url in Hu || idtac; cbn [fst snd posts List.length];
    rewrite Hm; try rewrite Hu;
    (repeat split; try (intros H; same_answer; fail); try (apply Htick);
     try (cbn; lia); intros _; eauto 8).
Qed.

(** C4 as stated fails on a response with status 101, which [client.Do]
    returns as it does any final response: the status is neither 2xx nor
    3xx and the batch counts as sent.  It fails, too, when the endpoint is
    no URL: the call ends before anything is sent, in none of the four
    ways. *)
Lemma sendBatch_status_101 :
  fst (sendBatch (NewLogSender "http://localhost:4318" 10)
         (mkNetwork (fun _ => None) (fun _ => Ok (mkResponse 101 (Ok "")))) [])
  = Delivered /\
  ~ (200 <= 101 < 400) /\
  fst (sendBatch (NewLogSender "http://[::1" 10)
         (mkNetwork (fun _ => Some "missing ']' in host")
                    (fun _ => Ok (mkResponse 200 (Ok "")))) [])
  = RequestFailure.
Proof. repeat split. lia. Qed.

(** C9.  The document is written, the request is built, and the response
    has status 422 and a body that the decoder refuses with error [err].
    Then [sendBatch] makes one request and prints two lines, of which
    exactly one reports the failure to decode (the other gives the
    status); and the worker goes on with an empty batch, the queue as it
    was, and the batch in none of its places. *)
Theorem rejected_undecodable ls net b jsonData err :
  marshalPayload (payload b) = Ok jsonData ->
  url_error net (endpoint ls ++ "/v1/logs") = None ->
  Do net (post_request ls jsonData) = Ok (mkResponse 422 (Err err)) ->
  sendBatch ls net b
  = (Rejected,
     [ HttpDo (post_request ls jsonData);
       LogLine ("Failed to decode error response: " ++ err);
       LogLine "Received status code: 422" ]) /\
  List.length (filter decode_failure (snd (sendBatch ls net b))) = 1%nat /\
  posts (snd (sendBatch ls net b)) = [post_request ls jsonData] /\
  forall t s,
    flush t net ls b s
    = mkSystem ls []
        (effects s ++ [ HttpDo (post_request ls jsonData);
                        LogLine ("Failed to decode error response: " ++ err);
                        LogLine "Received status code: 422" ])
        (flushes s ++ [(t, b)]).
Proof.
  intros Hm Hu Hd.
  assert (E : sendBatch ls net b
              = (Rejected,
                 [ HttpDo (post_request ls jsonData);
                   LogLine ("Failed to decode error response: " ++ err);
                   LogLine "Received status code: 422" ])).
  { unfold sendBatch, NewRequest. rewrite Hm, Hu. cbv zeta.
    change (Header_Set _ _ _) with (post_request ls jsonData).
    rewrite Hd. reflexivity. }
  split; [exact E |]. rewrite E. cbn [snd]. repeat split.
  - cbn [filter decode_failure]. rewrite prefix_append. reflexivity.
  - intros t s. unfold flush. rewrite E. reflexivity.
Qed.

(** The two records of [main], refused with 422 and a page of HTML. *)
Lemma rejected_undecodable_demo :
  List.length
    (filter decode_failure
       (snd (sendBatch demo_sender
               (answering 422 (Err "invalid character '<' looking for beginning of value"))
               demo_batch)))
  = 1%nat.
Proof.
  destruct (rejected_undecodable demo_sender
              (answering 422 (Err "invalid character '<' looking for beginning of value"))
              demo_batch demo_document
              "invalid character '<' looking for beginning of value")
    as (_ & Hone & _); [reflexivity | reflexivity | reflexivity | exact Hone].
Defined.

(** ** One field per value *)

Lemma Log_one_of now severityText severityNumber message attrs s :
  all_one_of s -> all_one_of (Log now severityText severityNumber message attrs s).
Proof.
  intros (Hq & Hb & Hf). unfold Log, try_send.
  destruct (List.length (chan_buf (logQueue (sender s))) <? chan_cap (logQueue (sender s)))%nat.
  - repeat split; cbn; try assumption.
    apply Forall_app. split; [assumption |].
    constructor; [apply new_entry_one_of | constructor].
  - repeat split; assumption.
Qed.

Lemma flush_one_of t net ls b s :
  all_one_of s -> Forall one_of_record (chan_buf (logQueue ls)) ->
  Forall one_of_record b -> all_one_of (flush t net ls b s).
Proof.
  intros (Hq & Hb & Hf) Hls Hbatch. repeat split; cbn.
  - assumption.
  - constructor.
  - apply Forall_app. split; [assumption |]. constructor; [assumption | constructor].
Qed.

Lemma step_one_of s a s' : all_one_of s -> step s a = Some s' -> all_one_of s'.
Proof.
  intros Hs. destruct a as [now sev num msg attrs | net | net]; cbn [step].
  - intros [= <-]. now apply Log_one_of.
  - unfold on_entry, receive. destruct Hs as (Hq & Hb & Hf).
    destruct (chan_buf (logQueue (sender s))) as [| entry rest] eqn:Hbuf;
      [discriminate |].
    inversion Hq as [| ? ? Hentry Hrest]; subst.
    assert (Hbatch : Forall one_of_record (batch s ++ [entry])).
    { apply Forall_app. split; [assumption |]. constructor; [assumption | constructor]. }
    destruct (Z.of_nat _ >=? _); intros [= <-].
    + apply flush_one_of; try assumption.
      repeat split; try assumption. rewrite Hbuf. assumption.
    + repeat split; assumption.
  - intros [= <-]. unfold on_tick.
    destruct (0 <? List.length (batch s))%nat; [| assumption].
    destruct Hs as (Hq & Hb & Hf). apply flush_one_of; repeat split; assumption.
Qed.

Lemma run_one_of schedule : forall s s',
  all_one_of s -> run s schedule = Some s' -> all_one_of s'.
Proof.
  induction schedule as [| a schedule IH]; intros s s' Hs; cbn [run].
  - now intros [= <-].
  - destruct (step s a) as [s1 |] eqn:Hstep; [| discriminate].
    apply IH. now apply step_one_of with (s := s) (a := a).
Qed.

(** C7.  The conversion returns a value with exactly one field set; so is
    the body of every record [Log] builds and each of its attribute
    values; so are the three resource attributes; and in every run of a
    sender started with an empty queue, every record in the queue, in
    the batch of the worker and in the batches sent is of this kind.  No
    value of the program has two fields set, and none is left unset. *)
Theorem one_field_set :
  (forall v, populated (convertToAttributeValue v) = 1%nat) /\
  (forall now severityText severityNumber message attrs,
     one_of_record (new_entry now severityText severityNumber message attrs)) /\
  (exists attrs, Resource_Attributes resource = Some attrs /\
     Forall (fun kv => populated (Value kv) = 1%nat) attrs) /\
  (forall ep size schedule s,
     run (Start (NewLogSender ep size)) schedule = Some s ->
     all_one_of s).
Proof.
  split; [exact convertToAttributeValue_populated |].
  split; [exact new_entry_one_of |].
  split.
  - eexists. split; [reflexivity |]. repeat constructor.
  - intros ep size schedule s Hrun.
    apply run_one_of with (schedule := schedule) (s := Start (NewLogSender ep size));
      [| exact Hrun].
    repeat split; constructor.
Qed.

(** ** The shape of a document *)

Lemma bind_Ok {A B : Type} (r : result A) (k : A -> result B) (y : B) :
  bind r k = Ok y -> exists x, r = Ok x /\ k x = Ok y.
Proof. destruct r as [x | e]; cbn; [eauto | discriminate]. Qed.

Tactic Notation "bind_inv" hyp(H) "as" ident(x) ident(Hx) :=
  apply bind_Ok in H; destruct H as (x & Hx & H).

Lemma marshalAttributeValue_eq (v : AttributeValue) :
  marshalAttributeValue v =
  (f1 <- ptr_omitempty "stringValue" marshalString (StringValue v) ;;
   f2 <- ptr_omitempty "boolValue" (fun b => Ok (JBool b)) (BoolValue v) ;;
   f3 <- ptr_omitempty "intValue" (fun n => Ok (JInt n)) (IntValue v) ;;
   f4 <- ptr_omitempty "doubleValue" marshalFloat64 (DoubleValue v) ;;
   f5 <- ptr_omitempty "arrayValue" marshalArrayValue (ArrayVal v) ;;
   f6 <- ptr_omitempty "kvlistValue" marshalKvlistValue (KvlistVal v) ;;
   f7 <- match BytesValue v with
         | [] => Ok []
         | b => Ok [("bytesValue", JBytes b)]
         end ;;
   Ok (JObj (f1 ++ f2 ++ f3 ++ f4 ++ f5 ++ f6 ++ f7))).
Proof. destruct v; reflexivity. Qed.

Lemma marshalArrayValue_eq (a : ArrayValue) :
  marshalArrayValue a =
  (f1 <- slice_field "values" marshalAttributeValue (ArrayValue_Values a) ;;
   Ok (JObj f1)).
Proof. destruct a; reflexivity. Qed.

Lemma marshalKvlistValue_eq (k : KvlistValue) :
  marshalKvlistValue k =
  (f1 <- slice_field "values" marshalKeyValue (KvlistValue_Values k) ;;
   Ok (JObj f1)).
Proof. destruct k; reflexivity. Qed.

Lemma marshalKeyValue_eq (kv : KeyValue) :
  marshalKeyValue kv =
  (f1 <- field "key" (marshalString (Key kv)) ;;
   f2 <- field "value" (marshalAttributeValue (Value kv)) ;;
   Ok (JObj (f1 ++ f2))).
Proof. destruct kv; reflexivity. Qed.

Lemma ptr_omitempty_keys {A : Type} key (enc : A -> result JSON) p f :
  (forall x j, enc x = Ok j -> j <> JNull) ->
  ptr_omitempty key enc p = Ok f ->
  map fst f = present key p /\ Forall not_null f.
Proof.
  intros Henc. destruct p as [x |]; cbn.
  - intros H. bind_inv H as j Hj. injection H as <-. split; [reflexivity |].
    constructor; [| constructor]. exact (Henc _ _ Hj).
  - intros [= <-]. split; [reflexivity | constructor].
Qed.

Lemma marshalFloat64_not_null f j : marshalFloat64 f = Ok j -> j <> JNull.
Proof.
  unfold marshalFloat64.
  destruct (PrimFloat.is_nan f); [discriminate |].
  destruct (PrimFloat.is_infinity f); [discriminate |].
  intros [= <-]. discriminate.
Qed.

Lemma marshalArrayValue_not_null a j : marshalArrayValue a = Ok j -> j <> JNull.
Proof.
  rewrite marshalArrayValue_eq. intros H. bind_inv H as f Hf.
  injection H as <-. discriminate.
Qed.

Lemma marshalKvlistValue_not_null k j : marshalKvlistValue k = Ok j -> j <> JNull.
Proof.
  rewrite marshalKvlistValue_eq. intros H. bind_inv H as f Hf.
  injection H as <-. discriminate.
Qed.

(** A value is written as an object with one field for each of its
    fields that is set, and no other; none of them is [null]. *)
Lemma marshalAttributeValue_keys v j :
  marshalAttributeValue v = Ok j ->
  exists fields, j = JObj fields /\ map fst fields = variant_keys v /\
                 Forall not_null fields.
Proof.
  rewrite marshalAttributeValue_eq. intros H.
  bind_inv H as f1 H1. bind_inv H as f2 H2. bind_inv H as f3 H3.
  bind_inv H as f4 H4. bind_inv H as f5 H5. bind_inv H as f6 H6.
  bind_inv H as f7 H7. injection H as <-.
  apply ptr_omitempty_keys in H1; [| intros x j [= <-]; discriminate].
  apply ptr_omitempty_keys in H2; [| intros x j [= <-]; discriminate].
  apply ptr_omitempty_keys in H3; [| intros x j [= <-]; discriminate].
  apply ptr_omitempty_keys in H4; [| exact marshalFloat64_not_null].
  apply ptr_omitempty_keys in H5; [| exact marshalArrayValue_not_null].
  apply ptr_omitempty_keys in H6; [| exact marshalKvlistValue_not_null].
  destruct H1 as [K1 N1], H2 as [K2 N2], H3 as [K3 N3], H4 as [K4 N4],
    H5 as [K5 N5], H6 as [K6 N6].
  assert (H7' : map fst f7 = nonempty "bytesValue" (BytesValue v) /\ Forall not_null f7).
  { destruct (BytesValue v); injection H7 as <-; split;
      try reflexivity; repeat constructor; discriminate. }
  clear H7. rename H7' into H7.
  destruct H7 as [K7 N7].
  eexists. split; [reflexivity |]. split.
  - rewrite !map_app, K1, K2, K3, K4, K5, K6, K7. reflexivity.
  - repeat (apply Forall_app; split; try assumption).
Qed.

Lemma slice_omitempty_keys {A : Type} key (enc : A -> result JSON) l f :
  slice_omitempty key enc l = Ok f ->
  map fst f = nonempty key l /\
  Forall (fun kj => exists js, snd kj = JArr js /\ List.length js = List.length l /\
                               traverse enc l = Ok js) f.
Proof.
  destruct l as [| x l]; cbn [slice_omitempty].
  - intros [= <-]. split; [reflexivity | constructor].
  - intros H. bind_inv H as js Hjs. injection H as <-. split; [reflexivity |].
    constructor; [| constructor]. exists js. repeat split; [| exact Hjs].
    clear - Hjs. revert js Hjs. generalize (x :: l). intros l'.
    induction l' as [| y l' IH]; cbn [traverse]; intros js H.
    + injection H as <-. reflexivity.
    + bind_inv H as j Hj. bind_inv H as js' Hjs'. injection H as <-.
      cbn [List.length]. f_equal. now apply IH.
Qed.

(** A record is written with its four fixed keys, and with [attributes]
    when, and only when, it has an attribute. *)
Lemma marshalLogRecord_keys r j :
  marshalLogRecord r = Ok j ->
  keys j = (["timeUnixNano"; "severityText"; "severityNumber"; "body"]
            ++ nonempty "attributes" (Attributes r))%list.
Proof.
  unfold marshalLogRecord, field, marshalString. cbn [bind]. intros H.
  bind_inv H as f4 H4. bind_inv H4 as body Hbody. injection H4 as <-.
  bind_inv H as f5 H5. injection H as <-.
  apply slice_omitempty_keys in H5. destruct H5 as [K5 _].
  cbn [keys map fst app]. rewrite K5. reflexivity.
Qed.

(** The document of a batch: the envelope, with the records under
    [log_records] when there is one and without that key otherwise. *)
Lemma marshalPayload_envelope (b : list LogRecord) :
  marshalPayload (payload b)
  = (log_records <- slice_omitempty "log_records" marshalLogRecord b ;;
     Ok (envelope log_records)).
Proof.
  assert (Hr : marshalResource resource
               = Ok (JObj [("attributes", JArr
                    [ JObj [("key", JStr "service.name");
                            ("value", JObj [("stringValue", JStr "my-go-app")])];
                      JObj [("key", JStr "service.version");
                            ("value", JObj [("stringValue", JStr "1.0.0")])];
                      JObj [("key", JStr "telemetry.sdk.language");
                            ("value", JObj [("stringValue", JStr "go")])] ])]))
    by reflexivity.
  assert (Hs : marshalScope scope
               = Ok (JObj [("name", JStr "custom-logger"); ("version", JStr "1.0")]))
    by reflexivity.
  unfold marshalPayload, payload. cbn [traverse].
  unfold marshalResourceLogs. cbn [ResourceLogs_Resource ResourceLogs_ScopeLogs].
  rewrite Hr. unfold field at 1. cbn [bind slice_omitempty traverse].
  unfold marshalScopeLogs. cbn [ScopeLogs_Scope LogRecords].
  rewrite Hs. unfold field at 1. cbn [bind].
  destruct (slice_omitempty "log_records" marshalLogRecord b) as [f | e];
    reflexivity.
Qed.

(** A batch that has a document does not end in [EncodeFailure], and
    what is posted for it is that document. *)
Lemma sendBatch_encoded ls net b j :
  marshalPayload (payload b) = Ok j -> fst (sendBatch ls net b) <> EncodeFailure.
Proof.
  intros Hm.
  destruct (sendBatch_cases ls net b)
    as [(e & He & _) | [(? & ? & _ & _ & ->) | [(? & ? & _ & _ & _ & ->)
       | [(? & ? & ? & _ & _ & _ & _ & ->) | (? & ? & _ & _ & _ & _ & ->)]]]];
    [congruence | discriminate ..].
Qed.

Lemma sendBatch_posts ls net b req :
  In req (posts (snd (sendBatch ls net b))) ->
  exists j, marshalPayload (payload b) = Ok j /\ req = post_request ls j.
Proof.
  destruct (sendBatch_cases ls net b)
    as [(e & Hm & ->) | [(j & e & Hm & Hu & ->) | [(j & e & Hm & Hu & Hd & ->)
       | [(j & resp & line & Hm & Hu & Hd & Hs & ->)
       | (j & resp & Hm & Hu & Hd & Hs & ->)]]]];
    cbn [snd posts In]; intros H; try contradiction;
    destruct H as [<- | []]; eauto.
Qed.

(** *** The encoders write the document as described *)

Lemma wire_value_eq (v : AttributeValue) :
  wire_value v =
  JObj (opt_field "stringValue"
          (option_map (fun s => JStr (toValidUTF8 s)) (StringValue v))
        ++ opt_field "boolValue" (option_map JBool (BoolValue v))
        ++ opt_field "intValue" (option_map JInt (IntValue v))
        ++ opt_field "doubleValue" (option_map JFloat (DoubleValue v))
        ++ opt_field "arrayValue" (option_map wire_array (ArrayVal v))
        ++ opt_field "kvlistValue" (option_map wire_kvlist (KvlistVal v))
        ++ match BytesValue v with
           | [] => []
           | b => [("bytesValue", JBytes b)]
           end).
Proof. destruct v; reflexivity. Qed.

Lemma wire_array_eq (a : ArrayValue) :
  wire_array a
  = JObj [("values", list_or_null (option_map (map wire_value) (ArrayValue_Values a)))].
Proof. destruct a; reflexivity. Qed.

Lemma wire_kvlist_eq (k : KvlistValue) :
  wire_kvlist k
  = JObj [("values", list_or_null (option_map (map wire_keyvalue) (KvlistValue_Values k)))].
Proof. destruct k; reflexivity. Qed.

Lemma wire_keyvalue_eq (kv : KeyValue) :
  wire_keyvalue kv
  = JObj [("key", JStr (toValidUTF8 (Key kv))); ("value", wire_value (Value kv))].
Proof. destruct kv; reflexivity. Qed.

Lemma ptr_omitempty_writes {A : Type} key (enc : A -> result JSON) w p f :
  opt_all (writes enc w) p ->
  ptr_omitempty key enc p = Ok f -> f = opt_field key (option_map w p).
Proof.
  destruct p as [x |]; cbn [opt_all ptr_omitempty option_map opt_field].
  - intros Hx H. bind_inv H as j Hj. injection H as <-.
    rewrite (Hx j Hj). reflexivity.
  - intros _ [= <-]. reflexivity.
Qed.

Lemma traverse_writes {A : Type} (enc : A -> result JSON) w (l : list A) :
  Forall (writes enc w) l ->
  forall js, traverse enc l = Ok js -> js = map w l.
Proof.
  induction 1 as [| x l Hx _ IH]; intros js; cbn [traverse map].
  - intros [= <-]. reflexivity.
  - intros H. bind_inv H as j Hj. bind_inv H as rest Hrest. injection H as <-.
    rewrite (Hx j Hj), (IH rest Hrest). reflexivity.
Qed.

Lemma slice_field_writes {A : Type} key (enc : A -> result JSON) w vs f :
  opt_all (Forall (writes enc w)) vs ->
  slice_field key enc vs = Ok f ->
  f = [(key, list_or_null (option_map (map w) vs))].
Proof.
  destruct vs as [l |]; cbn [opt_all slice_field option_map list_or_null].
  - intros Hl H. bind_inv H as js Hjs. injection H as <-.
    rewrite (traverse_writes enc w l Hl js Hjs). reflexivity.
  - intros _ [= <-]. reflexivity.
Qed.

Lemma slice_omitempty_writes {A : Type} key (enc : A -> result JSON) w l f :
  Forall (writes enc w) l ->
  slice_omitempty key enc l = Ok f -> f = omit_empty key (map w l).
Proof.
  intros Hl. destruct l as [| x l]; cbn [slice_omitempty].
  - intros [= <-]. reflexivity.
  - intros H. bind_inv H as js Hjs. injection H as <-.
    rewrite (traverse_writes enc w (x :: l) Hl js Hjs). reflexivity.
Qed.

Lemma scalar_writes {A : Type} (leaf : A -> JSON) (p : option A) :
  opt_all (writes (fun x => Ok (leaf x)) leaf) p.
Proof. destruct p; cbn [opt_all]; [| trivial]. intros j [= <-]. reflexivity. Qed.

Lemma marshalString_writes (p : option string) :
  opt_all (writes marshalString (fun s => JStr (toValidUTF8 s))) p.
Proof. apply (scalar_writes (fun s => JStr (toValidUTF8 s))). Qed.

Lemma marshalFloat64_writes (p : option float) :
  opt_all (writes marshalFloat64 JFloat) p.
Proof.
  destruct p as [f |]; cbn [opt_all]; [| trivial].
  intros j. unfold marshalFloat64.
  destruct (PrimFloat.is_nan f); [discriminate |].
  destruct (PrimFloat.is_infinity f); [discriminate |].
  intros [= <-]. reflexivity.
Qed.

Lemma AttributeValue_writes s b i d a k bs :
  opt_all (writes marshalArrayValue wire_array) a ->
  opt_all (writes marshalKvlistValue wire_kvlist) k ->
  writes marshalAttributeValue wire_value (mkAttributeValue s b i d a k bs).
Proof.
  intros IHa IHk j H.
  rewrite marshalAttributeValue_eq in H. rewrite wire_value_eq.
  cbn [StringValue BoolValue IntValue DoubleValue ArrayVal KvlistVal BytesValue] in *.
  bind_inv H as f1 H1. bind_inv H as f2 H2. bind_inv H as f3 H3.
  bind_inv H as f4 H4. bind_inv H as f5 H5. bind_inv H as f6 H6.
  bind_inv H as f7 H7. injection H as <-.
  rewrite (ptr_omitempty_writes _ _ _ _ _ (marshalString_writes s) H1).
  rewrite (ptr_omitempty_writes _ _ _ _ _ (scalar_writes JBool b) H2).
  rewrite (ptr_omitempty_writes _ _ _ _ _ (scalar_writes JInt i) H3).
  rewrite (ptr_omitempty_writes _ _ _ _ _ (marshalFloat64_writes d) H4).
  rewrite (ptr_omitempty_writes _ _ _ _ _ IHa H5).
  rewrite (ptr_omitempty_writes _ _ _ _ _ IHk H6).
  destruct bs; injection H7 as <-; reflexivity.
Qed.

Lemma ArrayValue_writes vs :
  opt_all (Forall (writes marshalAttributeValue wire_value)) vs ->
  writes marshalArrayValue wire_array (mkArrayValue vs).
Proof.
  intros IH j H. rewrite marshalArrayValue_eq in H. rewrite wire_array_eq.
  cbn [ArrayValue_Values] in *.
  bind_inv H as f1 H1. injection H as <-.
  rewrite (slice_field_writes _ _ _ _ _ IH H1). reflexivity.
Qed.

Lemma KvlistValue_writes vs :
  opt_all (Forall (writes marshalKeyValue wire_keyvalue)) vs ->
  writes marshalKvlistValue wire_kvlist (mkKvlistValue vs).
Proof.
  intros IH j H. rewrite marshalKvlistValue_eq in H. rewrite wire_kvlist_eq.
  cbn [KvlistValue_Values] in *.
  bind_inv H as f1 H1. injection H as <-.
  rewrite (slice_field_writes _ _ _ _ _ IH H1). reflexivity.
Qed.

Lemma KeyValue_writes key v :
  writes marshalAttributeValue wire_value v ->
  writes marshalKeyValue wire_keyvalue (mkKeyValue key v).
Proof.
  intros IH j H. rewrite marshalKeyValue_eq in H. rewrite wire_keyvalue_eq.
  cbn [Key Value] in *. unfold field, marshalString in H. cbn [bind] in H.
  bind_inv H as f2 H2. bind_inv H2 as value Hvalue. injection H2 as <-.
  injection H as <-. rewrite (IH value Hvalue). reflexivity.
Qed.

Lemma marshalAttributeValue_writes v : writes marshalAttributeValue wire_value v.
Proof.
  exact (AttributeValue_induction _ _ _ _
           AttributeValue_writes ArrayValue_writes KvlistValue_writes KeyValue_writes v).
Qed.

Lemma marshalKeyValue_writes kv : writes marshalKeyValue wire_keyvalue kv.
Proof.
  exact (KeyValue_induction _ _ _ _
           AttributeValue_writes ArrayValue_writes KvlistValue_writes KeyValue_writes kv).
Qed.

Lemma marshalLogRecord_writes r : writes marshalLogRecord wire_record r.
Proof.
  intros j. unfold marshalLogRecord, field, marshalString. cbn [bind]. intros H.
  bind_inv H as f4 H4. bind_inv H4 as body Hbody. injection H4 as <-.
  bind_inv H as f5 H5. injection H as <-.
  rewrite (marshalAttributeValue_writes (Body r) body Hbody).
  rewrite (slice_omitempty_writes "attributes" marshalKeyValue wire_keyvalue
             (Attributes r) f5); [reflexivity | | exact H5].
  apply Forall_forall. intros kv _. apply marshalKeyValue_writes.
Qed.

Lemma marshalPayload_writes b j :
  marshalPayload (payload b) = Ok j -> j = wire_document "scope_logs" b.
Proof.
  rewrite marshalPayload_envelope. intros H.
  bind_inv H as log_records Hrecords. injection H as <-.
  rewrite (slice_omitempty_writes "log_records" marshalLogRecord wire_record
             b log_records); [reflexivity | | exact Hrecords].
  apply Forall_forall. intros r _. apply marshalLogRecord_writes.
Qed.

Lemma posts_app (l1 l2 : list Effect) : posts (l1 ++ l2) = (posts l1 ++ posts l2)%list.
Proof.
  induction l1 as [| e l1 IH]; [reflexivity |].
  destruct e; cbn [app posts]; rewrite IH; reflexivity.
Qed.

(** A batch that has a document, when the request can be built: one
    request is handed to the client, with that document. *)
Lemma sendBatch_request ls net b j :
  marshalPayload (payload b) = Ok j ->
  url_error net (endpoint ls ++ "/v1/logs") = None ->
  posts (snd (sendBatch ls net b)) = [post_request ls j].
Proof.
  intros Hm Hu.
  destruct (sendBatch_cases ls net b)
    as [(e & Hm' & _) | [(j' & e & _ & Hu' & _) | [(j' & e & Hm' & _ & _ & ->)
       | [(j' & resp & line & Hm' & _ & _ & _ & ->)
       | (j' & resp & Hm' & _ & _ & _ & ->)]]]];
    cbv zeta in *; try congruence;
    cbn [snd posts]; congruence.
Qed.

(** C5, as the code has it.  Whenever a batch has a document and the
    request can be built, [sendBatch] hands the client one request, and
    the body of every request it hands over is the envelope as
    described, with the records of the batch in it, but for one key: the
    list of the scopes is under [scope_logs].  The list of the records is
    left out when the batch is empty.  A record is written as its four
    fields, the value under [body] being the document of its body, and,
    when it has attributes, the documents of its attributes under
    [attributes], a key that is left out when it has none; the
    attributes of the resource are the three of the program.  A
    key/value pair is written as its key and the document of its value.
    An attribute value is written as an object with a key for each field
    that is set and for no other, none of them [null], and under each
    key the value of that field. *)
Theorem document_shape :
  (forall ls net b j,
     marshalPayload (payload b) = Ok j ->
     url_error net (endpoint ls ++ "/v1/logs") = None ->
     posts (snd (sendBatch ls net b)) = [post_request ls j]) /\
  (forall ls net b req,
     In req (posts (snd (sendBatch ls net b))) ->
     RequestBody req = wire_document "scope_logs" b /\
     (exists log_records,
        slice_omitempty "log_records" marshalLogRecord b = Ok log_records /\
        RequestBody req = envelope log_records) /\
     Method req = "POST" /\ URL req = endpoint ls ++ "/v1/logs" /\
     Header req = [("Content-Type", "application/json")]) /\
  (forall b log_records,
     slice_omitempty "log_records" marshalLogRecord b = Ok log_records ->
     log_records = omit_empty "log_records" (map wire_record b) /\
     map fst log_records = nonempty "log_records" b /\
     Forall (fun kj => exists js, snd kj = JArr js /\
                         List.length js = List.length b /\
                         traverse marshalLogRecord b = Ok js) log_records) /\
  (forall r j,
     marshalLogRecord r = Ok j ->
     j = wire_record r /\
     keys j = (["timeUnixNano"; "severityText"; "severityNumber"; "body"]
               ++ nonempty "attributes" (Attributes r))%list /\
     get "timeUnixNano" j = Some (JInt (TimeUnixNano r)) /\
     get "severityText" j = Some (JStr (toValidUTF8 (SeverityText r))) /\
     get "severityNumber" j = Some (JInt (SeverityNumber r)) /\
     get "body" j = Some (wire_value (Body r)) /\
     marshalAttributeValue (Body r) = Ok (wire_value (Body r)) /\
     get "attributes" j
     = match Attributes r with
       | [] => None
       | _ :: _ => Some (JArr (map wire_keyvalue (Attributes r)))
       end /\
     traverse marshalKeyValue (Attributes r) = Ok (map wire_keyvalue (Attributes r))) /\
  get "attributes" (wire_resource resource)
  = Some (JArr [ wire_keyvalue (mkKeyValue "service.name" (ofString "my-go-app"));
                 wire_keyvalue (mkKeyValue "service.version" (ofString "1.0.0"));
                 wire_keyvalue (mkKeyValue "telemetry.sdk.language" (ofString "go")) ]) /\
  (forall kv j,
     marshalKeyValue kv = Ok j ->
     j = JObj [("key", JStr (toValidUTF8 (Key kv))); ("value", wire_value (Value kv))] /\
     marshalAttributeValue (Value kv) = Ok (wire_value (Value kv))) /\
  (forall v j,
     marshalAttributeValue v = Ok j ->
     j = wire_value v /\
     get "stringValue" j = option_map (fun s => JStr (toValidUTF8 s)) (StringValue v) /\
     get "boolValue" j = option_map JBool (BoolValue v) /\
     get "intValue" j = option_map JInt (IntValue v) /\
     get "doubleValue" j = option_map JFloat (DoubleValue v) /\
     get "arrayValue" j = option_map wire_array (ArrayVal v) /\
     get "kvlistValue" j = option_map wire_kvlist (KvlistVal v) /\
     get "bytesValue" j
     = match BytesValue v with
       | [] => None
       | _ :: _ => Some (JBytes (BytesValue v))
       end /\
     exists fields, j = JObj fields /\ map fst fields = variant_keys v /\
                    Forall not_null fields).
Proof.
  split; [| split; [| split; [| split; [| split; [| split]]]]].
  - exact sendBatch_request.
  - intros ls net b req Hin.
    destruct (sendBatch_posts ls net b req Hin) as (j & Hm & ->).
    split; [exact (marshalPayload_writes b j Hm) |].
    rewrite marshalPayload_envelope in Hm.
    bind_inv Hm as log_records Hrecords. injection Hm as <-.
    split; [exists log_records; split; [exact Hrecords | reflexivity] |].
    repeat split.
  - intros b log_records H. split; [| exact (slice_omitempty_keys _ _ _ _ H)].
    apply (slice_omitempty_writes "log_records" marshalLogRecord wire_record b);
      [| exact H].
    apply Forall_forall. intros r _. apply marshalLogRecord_writes.
  - intros r j H.
    pose proof (marshalLogRecord_keys r j H) as Hkeys.
    pose proof (marshalLogRecord_writes r j H) as ->.
    split; [reflexivity |]. split; [exact Hkeys |].
    split; [reflexivity |]. split; [reflexivity |]. split; [reflexivity |].
    split; [reflexivity |].
    revert H. unfold marshalLogRecord, field, marshalString. cbn [bind]. intros H.
    bind_inv H as f4 H4. bind_inv H4 as body Hbody.
    bind_inv H as f5 H5.
    pose proof (marshalAttributeValue_writes (Body r) body Hbody) as ->.
    split; [exact Hbody |].
    unfold wire_record.
    destruct (Attributes r) as [| kv attrs] eqn:Hattrs.
    + split; reflexivity.
    + split; [reflexivity |].
      cbn [slice_omitempty] in H5. bind_inv H5 as js Hjs.
      rewrite Hjs. f_equal.
      apply (traverse_writes marshalKeyValue wire_keyvalue (kv :: attrs)); [| exact Hjs].
      apply Forall_forall. intros x _. apply marshalKeyValue_writes.
  - reflexivity.
  - intros kv j H.
    pose proof (marshalKeyValue_writes kv j H) as ->.
    split; [apply wire_keyvalue_eq |].
    rewrite marshalKeyValue_eq in H. unfold field, marshalString in H.
    cbn [bind] in H. bind_inv H as f2 H2. bind_inv H2 as value Hvalue.
    rewrite Hvalue. f_equal. exact (marshalAttributeValue_writes _ _ Hvalue).
  - intros v j H.
    pose proof (marshalAttributeValue_keys v j H) as Hkeys.
    pose proof (marshalAttributeValue_writes v j H) as ->.
    split; [reflexivity |].
    split; [| split; [| split; [| split; [| split; [| split; [| split]]]]]];
      try exact Hkeys;
      rewrite wire_value_eq;
      destruct (StringValue v), (BoolValue v), (IntValue v), (DoubleValue v),
               (ArrayVal v), (KvlistVal v), (BytesValue v); reflexivity.
Qed.

(** C5 as stated fails on the key of the scope list: the tag of
    [ResourceLogs.ScopeLogs] is [scope_logs], and the document of the two
    records of [main] has that key and no key [scopeLogs]; it is not the
    envelope with the scopes under [scopeLogs]. *)
Lemma scope_logs_key :
  marshalPayload (payload demo_batch) = Ok demo_document /\
  demo_document <> wire_document "scopeLogs" demo_batch /\
  exists resourceLogs,
    get "resourceLogs" demo_document = Some (JArr [resourceLogs]) /\
    keys resourceLogs = ["resource"; "scope_logs"] /\
    get "scopeLogs" resourceLogs = None.
Proof.
  split; [reflexivity |]. split.
  - intros H.
    apply (f_equal (fun j => match get "resourceLogs" j with
                             | Some (JArr [resourceLogs]) => keys resourceLogs
                             | _ => []
                             end)) in H.
    vm_compute in H. discriminate H.
  - eexists. split; [reflexivity |]. split; reflexivity.
Qed.

(** ** Fewer records than the threshold *)






(** ** Writing and reading back *)

Lemma lookup_nil {A : Type} key (zero : result A) dec : lookup key [] zero dec = zero.
Proof. reflexivity. Qed.

Lemma lookup_here {A : Type} key j rest (zero : result A) dec :
  j <> JNull -> lookup key ((key, j) :: rest) zero dec = dec j.
Proof.
  intros Hj. cbn [lookup]. rewrite String.eqb_refl.
  destruct j; try reflexivity. congruence.
Qed.

Lemma lookup_skip {A : Type} key key' j rest (zero : result A) dec :
  String.eqb key' key = false ->
  lookup key ((key', j) :: rest) zero dec = lookup key rest zero dec.
Proof. intros Hk. cbn [lookup]. rewrite Hk. reflexivity. Qed.

Lemma lookup_opt_skip {A : Type} key key' o rest (zero : result A) dec :
  String.eqb key' key = false ->
  lookup key (opt_field key' o ++ rest) zero dec = lookup key rest zero dec.
Proof.
  intros Hk. destruct o as [j |]; [| reflexivity].
  cbn [opt_field app]. now apply lookup_skip.
Qed.

Lemma lookup_opt_here {A : Type} key o rest (zero : result A) dec :
  opt_all (fun j => j <> JNull) o ->
  lookup key (opt_field key o ++ rest) zero dec
  = match o with
    | Some j => dec j
    | None => lookup key rest zero dec
    end.
Proof.
  destruct o as [j |]; cbn [opt_all opt_field app]; [| reflexivity].
  apply lookup_here.
Qed.

(** A pointer field tagged [omitempty] whose target makes the round
    trip: it is written as a field that is there when the pointer is
    set, and read back from any object that has no other field of that
    key. *)
Lemma ptr_round_trip {A : Type} key (enc : A -> result JSON) dec (p : option A) :
  opt_all (round_trip enc dec) p ->
  exists o,
    ptr_omitempty key enc p = Ok (opt_field key o) /\
    opt_all (fun j => j <> JNull) o /\
    forall rest,
      lookup key rest (Ok None) (unmarshalPtr dec) = Ok None ->
      lookup key (opt_field key o ++ rest) (Ok None) (unmarshalPtr dec) = Ok p.
Proof.
  destruct p as [x |]; cbn [opt_all].
  - intros (j & Henc & Hj & Hdec). exists (Some j). cbn [ptr_omitempty opt_all].
    rewrite Henc. repeat split; [exact Hj |].
    intros rest _. rewrite lookup_opt_here by exact Hj.
    unfold unmarshalPtr. rewrite Hdec. reflexivity.
  - intros _. exists None. repeat split. intros rest Hrest. exact Hrest.
Qed.

Lemma traverse_round_trip {A : Type} (enc : A -> result JSON) dec (l : list A) :
  Forall (round_trip enc dec) l ->
  exists js, traverse enc l = Ok js /\ traverse dec js = Ok l.
Proof.
  induction 1 as [| x l (j & Henc & _ & Hdec) _ (js & Hjs & Hl)].
  - exists []. split; reflexivity.
  - exists (j :: js). cbn [traverse]. rewrite Henc, Hjs, Hdec, Hl. split; reflexivity.
Qed.

(** A slice field with no [omitempty]. *)
Lemma slice_round_trip {A : Type} key (enc : A -> result JSON) dec
    (vs : option (list A)) :
  opt_all (Forall (round_trip enc dec)) vs ->
  exists j,
    slice_field key enc vs = Ok [(key, j)] /\
    lookup key [(key, j)] (Ok None) (unmarshalSlice dec) = Ok vs.
Proof.
  destruct vs as [l |]; cbn [opt_all slice_field].
  - intros Hl. destruct (traverse_round_trip enc dec l Hl) as (js & Hjs & Hback).
    exists (JArr js). rewrite Hjs. split; [reflexivity |].
    rewrite lookup_here by discriminate.
    unfold unmarshalSlice, unmarshalList. rewrite Hback. reflexivity.
  - intros _. exists JNull. split; [reflexivity |].
    cbn [lookup]. rewrite String.eqb_refl. reflexivity.
Qed.

(** A slice field tagged [omitempty]. *)
Lemma list_round_trip {A : Type} key (enc : A -> result JSON) dec (l : list A) :
  Forall (round_trip enc dec) l ->
  exists o,
    slice_omitempty key enc l = Ok (opt_field key o) /\
    opt_all (fun j => j <> JNull) o /\
    forall rest,
      lookup key rest (Ok []) (unmarshalList dec) = Ok [] ->
      lookup key (opt_field key o ++ rest) (Ok []) (unmarshalList dec) = Ok l.
Proof.
  intros Hl. destruct l as [| x l].
  - exists None. repeat split. intros rest Hrest. exact Hrest.
  - destruct (traverse_round_trip enc dec (x :: l) Hl) as (js & Hjs & Hback).
    exists (Some (JArr js)). cbn [slice_omitempty]. rewrite Hjs.
    repeat split; [discriminate |].
    intros rest _. rewrite lookup_opt_here by (cbn; discriminate).
    exact Hback.
Qed.

Lemma marshalString_valid s :
  valid_utf8 s = true -> round_trip marshalString unmarshalString s.
Proof.
  unfold valid_utf8, marshalString. intros H. apply String.eqb_eq in H.
  exists (JStr s). rewrite H. repeat split. discriminate.
Qed.

Lemma marshalFloat64_finite f :
  finite f = true -> round_trip marshalFloat64 unmarshalFloat64 f.
Proof.
  unfold finite, marshalFloat64. intros H.
  apply andb_true_iff in H. destruct H as [Hnan Hinf].
  apply negb_true_iff in Hnan, Hinf.
  exists (JFloat f). rewrite Hnan, Hinf. repeat split. discriminate.
Qed.

Lemma int64_round_trip n :
  int64b n = true -> round_trip (fun n => Ok (JInt n)) unmarshalInt64 n.
Proof.
  unfold int64b. intros H. exists (JInt n).
  cbn [unmarshalInt64]. rewrite H. repeat split. discriminate.
Qed.

Lemma uint64_round_trip n :
  uint64b n = true -> round_trip (fun n => Ok (JInt n)) unmarshalUint64 n.
Proof.
  unfold uint64b. intros H. exists (JInt n).
  cbn [unmarshalUint64]. rewrite H. repeat split. discriminate.
Qed.

Lemma bool_round_trip b : round_trip (fun b => Ok (JBool b)) unmarshalBool b.
Proof. exists (JBool b). repeat split. discriminate. Qed.

Lemma holds_opt_all {A : Type} (p : A -> bool) (P : A -> Prop) (o : option A) :
  (forall x, p x = true -> P x) -> holds p o = true -> opt_all P o.
Proof. intros H. destruct o as [x |]; cbn; [apply H | trivial]. Qed.

Lemma lookup_opt_last {A : Type} key key' o (zero : result A) dec :
  String.eqb key' key = false -> lookup key (opt_field key' o) zero dec = zero.
Proof.
  intros Hk. destruct o as [j |]; [| reflexivity].
  cbn [opt_field]. rewrite lookup_skip by exact Hk. reflexivity.
Qed.

(** Moves the search for [key] past the fields of other keys. *)
Ltac skip_to key :=
  repeat (rewrite (lookup_opt_skip key) by reflexivity);
  repeat (rewrite (lookup_skip key) by reflexivity).

Ltac absent key :=
  skip_to key;
  first [ apply lookup_opt_last; reflexivity | apply lookup_nil | reflexivity ].

Lemma unmarshalAttributeValue_eq fields :
  unmarshalAttributeValue (JObj fields) =
  (s <- lookup "stringValue" fields (Ok None) (unmarshalPtr unmarshalString) ;;
   b <- lookup "boolValue" fields (Ok None) (unmarshalPtr unmarshalBool) ;;
   i <- lookup "intValue" fields (Ok None) (unmarshalPtr unmarshalInt64) ;;
   d <- lookup "doubleValue" fields (Ok None) (unmarshalPtr unmarshalFloat64) ;;
   a <- lookup "arrayValue" fields (Ok None) (unmarshalPtr unmarshalArrayValue) ;;
   k <- lookup "kvlistValue" fields (Ok None) (unmarshalPtr unmarshalKvlistValue) ;;
   bs <- lookup "bytesValue" fields (Ok []) unmarshalBytes ;;
   Ok (mkAttributeValue s b i d a k bs)).
Proof. reflexivity. Qed.

Lemma unmarshalArrayValue_eq fields :
  unmarshalArrayValue (JObj fields) =
  (vs <- lookup "values" fields (Ok None) (unmarshalSlice unmarshalAttributeValue) ;;
   Ok (mkArrayValue vs)).
Proof. reflexivity. Qed.

Lemma unmarshalKvlistValue_eq fields :
  unmarshalKvlistValue (JObj fields) =
  (vs <- lookup "values" fields (Ok None) (unmarshalSlice unmarshalKeyValue) ;;
   Ok (mkKvlistValue vs)).
Proof. reflexivity. Qed.

Lemma unmarshalKeyValue_eq fields :
  unmarshalKeyValue (JObj fields) =
  (key <- lookup "key" fields (Ok EmptyString) unmarshalString ;;
   v <- lookup "value" fields (Ok unset) unmarshalAttributeValue ;;
   Ok (mkKeyValue key v)).
Proof. reflexivity. Qed.

Lemma holds_round_trip {A : Type} (p : A -> bool) enc dec (o : option A) :
  opt_all (fun x => p x = true -> round_trip enc dec x) o ->
  holds p o = true -> opt_all (round_trip enc dec) o.
Proof. destruct o as [x |]; cbn; [auto | trivial]. Qed.

Lemma forallb_round_trip {A : Type} (p : A -> bool) enc dec (l : list A) :
  Forall (fun x => p x = true -> round_trip enc dec x) l ->
  forallb p l = true -> Forall (round_trip enc dec) l.
Proof.
  induction 1 as [| x l Hx _ IH]; cbn [forallb]; intros H; constructor.
  - apply andb_true_iff in H. apply Hx, H.
  - apply andb_true_iff in H. apply IH, H.
Qed.

Lemma AttributeValue_step s b i d a k bs :
  opt_all ArrayValue_round_trip a -> opt_all KvlistValue_round_trip k ->
  AttributeValue_round_trip (mkAttributeValue s b i d a k bs).
Proof.
  intros IHa IHk Hrep. unfold AttributeValue_round_trip in *.
  cbn [representable StringValue IntValue DoubleValue ArrayVal KvlistVal] in Hrep.
  apply andb_true_iff in Hrep. destruct Hrep as [Hrep Hk].
  apply andb_true_iff in Hrep. destruct Hrep as [Hrep Ha].
  apply andb_true_iff in Hrep. destruct Hrep as [Hrep Hd].
  apply andb_true_iff in Hrep. destruct Hrep as [Hs Hi].
  destruct (ptr_round_trip "stringValue" marshalString unmarshalString s)
    as (o1 & M1 & N1 & D1);
    [exact (holds_opt_all _ _ _ marshalString_valid Hs) |].
  destruct (ptr_round_trip "boolValue" (fun b => Ok (JBool b)) unmarshalBool b)
    as (o2 & M2 & N2 & D2);
    [destruct b; cbn; [apply bool_round_trip | trivial] |].
  destruct (ptr_round_trip "intValue" (fun n => Ok (JInt n)) unmarshalInt64 i)
    as (o3 & M3 & N3 & D3);
    [exact (holds_opt_all _ _ _ int64_round_trip Hi) |].
  destruct (ptr_round_trip "doubleValue" marshalFloat64 unmarshalFloat64 d)
    as (o4 & M4 & N4 & D4);
    [exact (holds_opt_all _ _ _ marshalFloat64_finite Hd) |].
  destruct (ptr_round_trip "arrayValue" marshalArrayValue unmarshalArrayValue a)
    as (o5 & M5 & N5 & D5);
    [exact (holds_round_trip _ _ _ _ IHa Ha) |].
  destruct (ptr_round_trip "kvlistValue" marshalKvlistValue unmarshalKvlistValue k)
    as (o6 & M6 & N6 & D6);
    [exact (holds_round_trip _ _ _ _ IHk Hk) |].
  pose (o7 := match bs with [] => None | _ :: _ => Some (JBytes bs) end).
  exists (JObj (opt_field "stringValue" o1 ++ opt_field "boolValue" o2
                ++ opt_field "intValue" o3 ++ opt_field "doubleValue" o4
                ++ opt_field "arrayValue" o5 ++ opt_field "kvlistValue" o6
                ++ opt_field "bytesValue" o7)).
  split; [| split; [discriminate |]].
  - rewrite marshalAttributeValue_eq.
    cbn [StringValue BoolValue IntValue DoubleValue ArrayVal KvlistVal BytesValue].
    rewrite M1, M2, M3, M4, M5, M6. cbn [bind].
    subst o7. destruct bs; reflexivity.
  - rewrite unmarshalAttributeValue_eq.
    rewrite D1 by (absent "stringValue"). cbn [bind].
    skip_to "boolValue". rewrite D2 by (absent "boolValue"). cbn [bind].
    skip_to "intValue". rewrite D3 by (absent "intValue"). cbn [bind].
    skip_to "doubleValue". rewrite D4 by (absent "doubleValue"). cbn [bind].
    skip_to "arrayValue". rewrite D5 by (absent "arrayValue"). cbn [bind].
    skip_to "kvlistValue". rewrite D6 by (absent "kvlistValue"). cbn [bind].
    skip_to "bytesValue". subst o7. destruct bs; reflexivity.
Qed.

Lemma ArrayValue_step vs :
  opt_all (Forall AttributeValue_round_trip) vs ->
  ArrayValue_round_trip (mkArrayValue vs).
Proof.
  intros IH Hrep. unfold ArrayValue_round_trip in *.
  cbn [representableArray ArrayValue_Values] in Hrep.
  destruct (slice_round_trip "values" marshalAttributeValue unmarshalAttributeValue vs)
    as (j & Henc & Hdec).
  { destruct vs as [l |]; cbn [opt_all holds] in *; [| trivial].
    now apply forallb_round_trip with (p := representable). }
  exists (JObj [("values", j)]). split; [| split; [discriminate |]].
  - rewrite marshalArrayValue_eq. cbn [ArrayValue_Values]. rewrite Henc. reflexivity.
  - rewrite unmarshalArrayValue_eq, Hdec. reflexivity.
Qed.

Lemma KvlistValue_step vs :
  opt_all (Forall KeyValue_round_trip) vs ->
  KvlistValue_round_trip (mkKvlistValue vs).
Proof.
  intros IH Hrep. unfold KvlistValue_round_trip in *.
  cbn [representableKvlist KvlistValue_Values] in Hrep.
  destruct (slice_round_trip "values" marshalKeyValue unmarshalKeyValue vs)
    as (j & Henc & Hdec).
  { destruct vs as [l |]; cbn [opt_all holds] in *; [| trivial].
    now apply forallb_round_trip with (p := representableKeyValue). }
  exists (JObj [("values", j)]). split; [| split; [discriminate |]].
  - rewrite marshalKvlistValue_eq. cbn [KvlistValue_Values]. rewrite Henc. reflexivity.
  - rewrite unmarshalKvlistValue_eq, Hdec. reflexivity.
Qed.

Lemma KeyValue_step key v :
  AttributeValue_round_trip v -> KeyValue_round_trip (mkKeyValue key v).
Proof.
  intros IH Hrep. unfold KeyValue_round_trip, AttributeValue_round_trip in *.
  cbn [representableKeyValue Key Value] in Hrep.
  apply andb_true_iff in Hrep. destruct Hrep as [Hkey Hv].
  destruct (marshalString_valid key Hkey) as (j1 & E1 & N1 & D1).
  destruct (IH Hv) as (j2 & E2 & N2 & D2).
  exists (JObj [("key", j1); ("value", j2)]). split; [| split; [discriminate |]].
  - rewrite marshalKeyValue_eq. cbn [Key Value]. unfold field.
    rewrite E1, E2. reflexivity.
  - rewrite unmarshalKeyValue_eq.
    rewrite lookup_here by exact N1. rewrite D1. cbn [bind].
    skip_to "value". rewrite lookup_here by exact N2. rewrite D2. reflexivity.
Qed.

(** Every representable attribute value, array, key/value list and
    key/value pair is written as a document that reads back as it. *)
Lemma attribute_round_trip :
  (forall v, AttributeValue_round_trip v) /\ (forall kv, KeyValue_round_trip kv).
Proof.
  split.
  - exact (AttributeValue_induction _ _ _ _
             AttributeValue_step ArrayValue_step KvlistValue_step KeyValue_step).
  - exact (KeyValue_induction _ _ _ _
             AttributeValue_step ArrayValue_step KvlistValue_step KeyValue_step).
Qed.

Lemma LogRecord_round_trip r :
  representableLogRecord r = true ->
  round_trip marshalLogRecord unmarshalLogRecord r.
Proof.
  destruct r as [t text number body attrs]. unfold representableLogRecord.
  cbn [TimeUnixNano SeverityText SeverityNumber Body Attributes]. intros Hrep.
  apply andb_true_iff in Hrep. destruct Hrep as [Hrep Hattrs].
  apply andb_true_iff in Hrep. destruct Hrep as [Hrep Hbody].
  apply andb_true_iff in Hrep. destruct Hrep as [Hrep Hnumber].
  apply andb_true_iff in Hrep. destruct Hrep as [Ht Htext].
  destruct (uint64_round_trip t Ht) as (j1 & E1 & N1 & D1).
  destruct (marshalString_valid text Htext) as (j2 & E2 & N2 & D2).
  destruct (int64_round_trip number Hnumber) as (j3 & E3 & N3 & D3).
  destruct (proj1 attribute_round_trip body Hbody) as (j4 & E4 & N4 & D4).
  destruct (list_round_trip "attributes" marshalKeyValue unmarshalKeyValue attrs)
    as (o5 & E5 & N5 & D5).
  { apply forallb_round_trip with (p := representableKeyValue); [| exact Hattrs].
    apply Forall_forall. intros kv _. apply (proj2 attribute_round_trip). }
  injection E1 as <-. injection E3 as <-.
  exists (JObj ([("timeUnixNano", JInt t); ("severityText", j2);
                 ("severityNumber", JInt number); ("body", j4)]
                ++ opt_field "attributes" o5)).
  split; [| split; [discriminate |]].
  - unfold marshalLogRecord, field.
    cbn [TimeUnixNano SeverityText SeverityNumber Body Attributes].
    rewrite E2, E4, E5. reflexivity.
  - cbn [unmarshalLogRecord app].
    rewrite lookup_here by exact N1. rewrite D1. cbn [bind].
    skip_to "severityText". rewrite lookup_here by exact N2. rewrite D2. cbn [bind].
    skip_to "severityNumber". rewrite lookup_here by exact N3. rewrite D3. cbn [bind].
    skip_to "body". rewrite lookup_here by exact N4. rewrite D4. cbn [bind].
    skip_to "attributes".
    rewrite <- (app_nil_r (opt_field "attributes" o5)).
    rewrite D5 by reflexivity. reflexivity.
Qed.

(** C8, as the code has it.  A batch is given every double of which is
    finite, every string of which is valid UTF-8 and every integer of
    which is within its Go type.  Then [json.Marshal] writes the
    envelope; read back into [[]ResourceLogs] by the tags of the
    program, the envelope yields the payload that was written, and so
    the records of the batch, in order, each with its time, severity
    text, severity number, body and attributes.  [sendBatch] does not
    end in an encoding failure, and what it posts is this envelope. *)
Theorem envelope_round_trip (b : list LogRecord) :
  forallb representableLogRecord b = true ->
  exists jsonData,
    marshalPayload (payload b) = Ok jsonData /\
    exists decoded,
      unmarshalPayload jsonData = Ok decoded /\
      decoded = payload b /\
      records_of decoded = b /\
      forall ls net,
        fst (sendBatch ls net b) <> EncodeFailure /\
        forall req, In req (posts (snd (sendBatch ls net b))) ->
                    RequestBody req = jsonData.
Proof.
  intros Hrep.
  destruct (list_round_trip "log_records" marshalLogRecord unmarshalLogRecord b)
    as (o & Henc & Ho & Hdec).
  { apply Forall_forall. intros r Hin. apply LogRecord_round_trip.
    rewrite forallb_forall in Hrep. now apply Hrep. }
  assert (Hm : marshalPayload (payload b) = Ok (envelope (opt_field "log_records" o))).
  { rewrite marshalPayload_envelope, Henc. reflexivity. }
  exists (envelope (opt_field "log_records" o)). split; [exact Hm |].
  exists (payload b). split; [| split; [reflexivity | split]].
  - unfold envelope. cbn [unmarshalPayload].
    rewrite lookup_here by discriminate.
    cbn [unmarshalList traverse unmarshalResourceLogs].
    rewrite lookup_here by discriminate.
    change (unmarshalResource _) with (Ok resource). cbn [bind].
    skip_to "scope_logs". rewrite lookup_here by discriminate.
    cbn [unmarshalList traverse unmarshalScopeLogs].
    rewrite lookup_here by discriminate.
    change (unmarshalScope _) with (Ok scope). cbn [bind].
    skip_to "log_records".
    rewrite <- (app_nil_r (opt_field "log_records" o)).
    rewrite Hdec by reflexivity. reflexivity.
  - unfold records_of, payload. cbn [flat_map ResourceLogs_ScopeLogs LogRecords].
    now rewrite !app_nil_r.
  - intros ls net. split.
    + now apply sendBatch_encoded with (j := envelope (opt_field "log_records" o)).
    + intros req Hin.
      destruct (sendBatch_posts ls net b req Hin) as (j & Hj & ->).
      rewrite Hm in Hj. injection Hj as <-. reflexivity.
Qed.

(** C8 as stated fails on a batch that holds a NaN, which [Log] accepts
    as an attribute: the batch has no envelope.  It fails, too, on a
    message that is not valid UTF-8: the envelope is written, and the
    body read back is not the body that was logged. *)
Lemma envelope_round_trip_nan :
  marshalPayload
    (payload (logged [ALog demo_clock "INFO" 9 "ratio"
                        (Some [("ratio", GoFloat64 PrimFloat.nan)])]))
  = Err "json: unsupported value: NaN" /\
  exists jsonData decoded,
    marshalPayload
      (payload (logged [ALog demo_clock "INFO" 9 (String (ascii_of_N 255) "") None]))
    = Ok jsonData /\
    unmarshalPayload jsonData = Ok decoded /\
    map (fun r => StringValue (Body r)) (records_of decoded) = [Some replacement] /\
    replacement <> String (ascii_of_N 255) "".
Proof.
  split; [reflexivity |].
  eexists. eexists. split; [reflexivity |]. split; [reflexivity |].
  split; [reflexivity | discriminate].
Qed.

(** The two records of [main]. *)
Lemma envelope_round_trip_demo :
  exists jsonData,
    marshalPayload (payload demo_batch) = Ok jsonData /\
    unmarshalPayload jsonData = Ok (payload demo_batch).
Proof.
  destruct (envelope_round_trip demo_batch) as (jsonData & Hm & decoded & Hd & -> & _);
    [reflexivity |].
  exists jsonData. split; assumption.
Defined.

(** ** Records in flight *)


Lemma dropped_app (l1 l2 : list Effect) :
  dropped (l1 ++ l2) = (dropped l1 + dropped l2)%nat.
Proof. unfold dropped. rewrite filter_app, length_app. reflexivity. Qed.

(** None of the lines of [sendBatch] is the line of a dropped record. *)
Lemma sendBatch_drops_nothing ls net b : dropped (snd (sendBatch ls net b)) = 0%nat.
Proof.
  unfold sendBatch.
  destruct (marshalPayload (payload b)); [| reflexivity].
  destruct (NewRequest net _ _ _); [| reflexivity]. cbv zeta.
  destruct (Do net _) as [resp |]; [| reflexivity].
  destruct (StatusCode resp >=? 400); [| reflexivity].
  destruct (ResponseBody resp); reflexivity.
Qed.

Lemma sent_flush t net ls b s :
  sent (flush t net ls b s) = (sent s ++ b)%list.
Proof.
  unfold sent, flush. cbn [flushes].
  rewrite map_app, concat_app. cbn [map snd List.concat]. now rewrite app_nil_r.
Qed.

Lemma dropped_flush t net ls b s :
  dropped (effects (flush t net ls b s)) = dropped (effects s).
Proof.
  unfold flush. cbn [effects]. rewrite dropped_app, sendBatch_drops_nothing. lia.
Qed.

(** What one step does to the records in flight: a call of [Log] adds its
    record behind the others, or, at capacity, drops it and prints a
    line; a step of the worker moves records from the queue to the batch
    and from the batch to the batches sent, and neither adds, loses nor
    reorders one. *)
Lemma step_held s a s' :
  step s a = Some s' ->
  chan_cap (logQueue (sender s')) = chan_cap (logQueue (sender s)) /\
  (List.length (chan_buf (logQueue (sender s')))
   <= List.length (chan_buf (logQueue (sender s))) + List.length (logged [a]))%nat /\
  ((held s' = (held s ++ logged [a])%list /\
    dropped (effects s') = dropped (effects s) /\
    (is_log a = true ->
     (List.length (chan_buf (logQueue (sender s))) < chan_cap (logQueue (sender s)))%nat)) \/
   (held s' = held s /\
    dropped (effects s') = S (dropped (effects s)) /\
    List.length (logged [a]) = 1%nat /\
    (chan_cap (logQueue (sender s)) <= List.length (chan_buf (logQueue (sender s))))%nat)).
Proof.
  destruct a as [now sev num msg attrs | net | net]; cbn [step logged is_log].
  - intros [= <-]. unfold Log, try_send.
    destruct (List.length (chan_buf (logQueue (sender s))) <? chan_cap (logQueue (sender s)))%nat
      eqn:Hroom.
    + apply Nat.ltb_lt in Hroom.
      unfold held, sent. cbn [sender batch flushes effects with_logQueue logQueue chan_buf chan_cap].
      rewrite length_app. cbn [List.length]. repeat split; [lia |].
      left. repeat split; [| intros _; exact Hroom]. now rewrite <- !app_assoc.
    + apply Nat.ltb_ge in Hroom.
      unfold held, sent. cbn [sender batch flushes effects].
      repeat split; [lia |]. right. repeat split; [| exact Hroom].
      rewrite dropped_app. cbn. lia.
  - unfold on_entry, receive.
    destruct (chan_buf (logQueue (sender s))) as [| entry rest] eqn:Hbuf; [discriminate |].
    destruct (Z.of_nat _ >=? _); intros [= <-].
    + rewrite dropped_flush. unfold held. rewrite sent_flush.
      unfold flush. cbn [sender batch with_logQueue logQueue chan_buf chan_cap List.length].
      repeat split; [lia |]. left. repeat split; [| discriminate].
      rewrite Hbuf, app_nil_r, <- !app_assoc. reflexivity.
    + unfold held, sent.
      cbn [sender batch flushes effects with_logQueue logQueue chan_buf chan_cap List.length].
      repeat split; [lia |]. left. repeat split; [| discriminate].
      rewrite Hbuf, app_nil_r, <- !app_assoc. reflexivity.
  - intros [= <-]. unfold on_tick.
    destruct (0 <? List.length (batch s))%nat.
    + rewrite dropped_flush. unfold held. rewrite sent_flush.
      unfold flush. cbn [sender batch List.length].
      repeat split; [lia |]. left. repeat split; [| discriminate].
      rewrite app_nil_r, <- !app_assoc. reflexivity.
    + repeat split; [cbn; lia |]. left. repeat split; [| discriminate].
      now rewrite app_nil_r.
Qed.

Lemma logged_cons a schedule :
  logged (a :: schedule) = (logged [a] ++ logged schedule)%list.
Proof. destruct a; reflexivity. Qed.

Lemma run_held schedule : forall s s',
  (List.length (chan_buf (logQueue (sender s))) + List.length (logged schedule)
   <= chan_cap (logQueue (sender s)))%nat ->
  run s schedule = Some s' ->
  held s' = (held s ++ logged schedule)%list /\
  dropped (effects s') = dropped (effects s).
Proof.
  induction schedule as [| a schedule IH]; intros s s' Hroom; cbn [run].
  - intros [= <-]. cbn [logged]. now rewrite app_nil_r.
  - destruct (step s a) as [s1 |] eqn:Hstep; [| discriminate]. intros Hrun.
    rewrite logged_cons, length_app in *.
    destruct (step_held s a s1 Hstep)
      as (Hcap & Hlen & [(Hheld & Hdrop & _) | (_ & _ & Hone & Hfull)]); [| lia].
    destruct (IH s1 s') as (Hheld' & Hdrop'); [rewrite Hcap; lia | exact Hrun |].
    rewrite Hheld', Hheld, Hdrop', Hdrop, app_assoc. split; reflexivity.
Qed.

(** X1.  A sender is started with an empty queue and no more records are
    logged than the queue has room for.  Then, however the calls of
    [Log], the receives and the ticks are interleaved and whatever the
    network answers, the records sent, followed by those in the batch of
    the worker and those in the queue, are the records logged, each once
    and in the order logged, and no record was dropped. *)
Theorem records_in_order ls schedule s :
  chan_buf (logQueue ls) = [] ->
  (List.length (logged schedule) <= chan_cap (logQueue ls))%nat ->
  run (Start ls) schedule = Some s ->
  held s = logged schedule /\ dropped (effects s) = 0%nat.
Proof.
  intros Hempty Hroom Hrun.
  destruct (run_held schedule (Start ls) s) as (Hheld & Hdrop);
    [cbn [Start sender]; rewrite Hempty; cbn; lia | exact Hrun |].
  rewrite Hheld, Hdrop. unfold held, sent. cbn [Start flushes batch sender effects].
  rewrite Hempty. split; reflexivity.
Qed.

(** Fifteen calls, twelve receives, a tick, three receives and a tick. *)
Lemma records_in_order_demo :
  exists s,
    run (Start demo_sender) (repeat demo_started 15 ++ demo_late) = Some s /\
    held s = logged (repeat demo_started 15 ++ demo_late).
Proof.
  destruct (run (Start demo_sender) (repeat demo_started 15 ++ demo_late))
    as [s |] eqn:Hrun; [| vm_compute in Hrun; discriminate Hrun].
  exists s. split; [reflexivity |].
  apply (records_in_order demo_sender (repeat demo_started 15 ++ demo_late) s);
    [reflexivity | vm_compute; lia | exact Hrun].
Defined.

Lemma run_accounted schedule : forall s s',
  run s schedule = Some s' ->
  chan_cap (logQueue (sender s')) = chan_cap (logQueue (sender s)) /\
  (List.length (held s') + dropped (effects s')
   = List.length (held s) + dropped (effects s) + List.length (logged schedule))%nat.
Proof.
  induction schedule as [| a schedule IH]; intros s s'; cbn [run].
  - intros [= <-]. cbn [logged List.length]. split; [reflexivity | lia].
  - destruct (step s a) as [s1 |] eqn:Hstep; [| discriminate]. intros Hrun.
    rewrite logged_cons, length_app.
    destruct (IH s1 s' Hrun) as (Hcap' & Hsum).
    destruct (step_held s a s1 Hstep)
      as (Hcap & _ & [(Hheld & Hdrop & _) | (Hheld & Hdrop & Hone & _)]);
      (split; [congruence |]); rewrite Hsum, Hheld, Hdrop.
    + rewrite length_app. lia.
    + lia.
Qed.

Lemma run_bounded schedule : forall s s',
  (List.length (chan_buf (logQueue (sender s))) <= chan_cap (logQueue (sender s)))%nat ->
  run s schedule = Some s' ->
  (List.length (chan_buf (logQueue (sender s'))) <= chan_cap (logQueue (sender s')))%nat.
Proof.
  induction schedule as [| a schedule IH]; intros s s' Hs; cbn [run].
  - now intros [= <-].
  - destruct (step s a) as [s1 |] eqn:Hstep; [| discriminate].
    apply IH.
    destruct (step_held s a s1 Hstep)
      as (Hcap & Hlen & [(_ & _ & Hlog) | (Hheld & Hdrop & Hone & Hfull)]).
    + rewrite Hcap. destruct a as [? ? ? ? ? | net | net]; cbn [logged List.length] in Hlen.
      * specialize (Hlog eq_refl). lia.
      * lia.
      * lia.
    + rewrite Hcap.
      destruct a as [now sev num msg attrs | net | net]; try discriminate Hone.
      cbn [step] in Hstep. injection Hstep as <-.
      unfold Log, try_send.
      apply Nat.ltb_ge in Hfull. rewrite Hfull. cbn [sender]. exact Hs.
Qed.

(** X2.  In every run of a started sender, every record logged is
    accounted for: the records sent, in the batch and in the queue,
    together with the lines that report a dropped record, are as many as
    the calls of [Log]; and the queue never holds more than the thousand
    records of its capacity. *)
Theorem records_accounted ep size schedule s :
  run (Start (NewLogSender ep size)) schedule = Some s ->
  (List.length (held s) + dropped (effects s) = List.length (logged schedule))%nat /\
  (List.length (chan_buf (logQueue (sender s))) <= 1000)%nat.
Proof.
  intros Hrun. split.
  - destruct (run_accounted schedule _ s Hrun) as (_ & Hsum).
    rewrite Hsum. reflexivity.
  - destruct (run_accounted schedule _ s Hrun) as (Hcap & _).
    change 1000%nat with (chan_cap (logQueue (sender (Start (NewLogSender ep size))))).
    rewrite <- Hcap.
    apply run_bounded with (schedule := schedule) (s := Start (NewLogSender ep size));
      [cbn; lia | exact Hrun].
Qed.

(** A thousand and two calls of [Log] and one receive. *)
Lemma records_accounted_demo :
  exists s,
    run (Start demo_sender)
      (repeat demo_started 1002 ++ [AEntry (answering 200 (Ok ""))]) = Some s /\
    (List.length (held s) + dropped (effects s))%nat = 1002%nat.
Proof.
  destruct (run (Start demo_sender)
              (repeat demo_started 1002 ++ [AEntry (answering 200 (Ok ""))]))
    as [s |] eqn:Hrun; [| vm_compute in Hrun; discriminate Hrun].
  exists s. split; [reflexivity |].
  destruct (records_accounted "http://localhost:4318" 10
              (repeat demo_started 1002 ++ [AEntry (answering 200 (Ok ""))]) s Hrun)
    as (Hsum & _).
  rewrite Hsum. vm_compute. reflexivity.
Defined.

(** ** A queue that nobody empties *)

Lemma run_only_logs schedule : forall s,
  forallb is_log schedule = true ->
  (List.length (chan_buf (logQueue (sender s))) <= chan_cap (logQueue (sender s)))%nat ->
  exists s',
    run s schedule = Some s' /\
    chan_cap (logQueue (sender s')) = chan_cap (logQueue (sender s)) /\
    chan_buf (logQueue (sender s'))
    = firstn (chan_cap (logQueue (sender s)))
        (chan_buf (logQueue (sender s)) ++ logged schedule) /\
    batch s' = batch s /\ flushes s' = flushes s /\
    effects s'
    = (effects s
       ++ repeat (LogLine "Log queue full, dropping log entry")
            (List.length (chan_buf (logQueue (sender s))) + List.length (logged schedule)
             - chan_cap (logQueue (sender s))))%list.
Proof.
  induction schedule as [| a schedule IH]; intros s Hlogs Hlen.
  - exists s. cbn [run logged List.length]. rewrite app_nil_r, Nat.add_0_r.
    replace (_ - _)%nat with 0%nat by lia. cbn [repeat]. rewrite app_nil_r.
    repeat split. symmetry. apply firstn_all2. exact Hlen.
  - cbn [forallb] in Hlogs. apply andb_true_iff in Hlogs. destruct Hlogs as [Ha Hlogs].
    destruct a as [now sev num msg attrs | net | net]; try discriminate Ha.
    cbn [run step logged List.length]. unfold Log, try_send.
    set (q := chan_buf (logQueue (sender s))) in *.
    set (cap := chan_cap (logQueue (sender s))) in *.
    set (entry := new_entry now sev num msg attrs).
    destruct (List.length q <? cap)%nat eqn:Hroom.
    + apply Nat.ltb_lt in Hroom.
      destruct (IH (mkSystem (with_logQueue (sender s) (mkChan cap (q ++ [entry])))
                      (batch s) (effects s) (flushes s)) Hlogs)
        as (s' & Hrun & Hcap & Hbuf & Hbatch & Hflushes & Heffects).
      { cbn [sender with_logQueue logQueue chan_buf chan_cap].
        rewrite length_app. cbn [List.length]. lia. }
      cbn [sender with_logQueue logQueue chan_buf chan_cap batch effects flushes] in *.
      exists s'. rewrite <- app_assoc in Hbuf. cbn [app] in Hbuf.
      rewrite length_app in Heffects. cbn [List.length] in Heffects.
      repeat split; try assumption.
      rewrite Heffects. do 2 f_equal. lia.
    + apply Nat.ltb_ge in Hroom. assert (Hfull : List.length q = cap) by lia.
      destruct (IH (mkSystem (sender s) (batch s)
                      (effects s ++ [LogLine "Log queue full, dropping log entry"])
                      (flushes s)) Hlogs)
        as (s' & Hrun & Hcap & Hbuf & Hbatch & Hflushes & Heffects).
      { cbn [sender]. exact Hlen. }
      cbn [sender batch effects flushes] in *. fold q cap in Hcap, Hbuf, Heffects.
      exists s'. repeat split; try assumption.
      * rewrite Hbuf, !firstn_app, Hfull, Nat.sub_diag. reflexivity.
      * rewrite Heffects, <- app_assoc. f_equal.
        replace (List.length q + S (List.length (logged schedule)) - cap)%nat
          with (S (List.length q + List.length (logged schedule) - cap)) by lia.
        reflexivity.
Qed.

(** X3.  A sender is started and records are logged while the worker
    takes none.  Then the queue holds the first thousand of them, in the
    order logged; each later one was dropped, with one line for each on
    the diagnostic log; and nothing was sent. *)
Theorem queue_fills ep size schedule :
  forallb is_log schedule = true ->
  exists s,
    run (Start (NewLogSender ep size)) schedule = Some s /\
    chan_buf (logQueue (sender s)) = firstn 1000 (logged schedule) /\
    effects s = repeat (LogLine "Log queue full, dropping log entry")
                  (List.length (logged schedule) - 1000) /\
    batch s = [] /\ flushes s = [].
Proof.
  intros Hlogs.
  destruct (run_only_logs schedule (Start (NewLogSender ep size)) Hlogs)
    as (s & Hrun & _ & Hbuf & Hbatch & Hflushes & Heffects); [cbn; lia |].
  exists s. repeat split; assumption.
Qed.

(** A thousand and two calls of [Log]: the last two are dropped. *)
Lemma queue_fills_demo :
  exists s,
    run (Start demo_sender) (repeat demo_started 1002) = Some s /\
    List.length (chan_buf (logQueue (sender s))) = 1000%nat /\
    effects s = [ LogLine "Log queue full, dropping log entry";
                  LogLine "Log queue full, dropping log entry" ].
Proof.
  destruct (queue_fills "http://localhost:4318" 10 (repeat demo_started 1002))
    as (s & Hrun & Hbuf & Heffects & _); [vm_compute; reflexivity |].
  exists s. split; [exact Hrun |]. split.
  - rewrite Hbuf. vm_compute. reflexivity.
  - rewrite Heffects. vm_compute. reflexivity.
Defined.

(** ** The size of a batch *)

Lemma step_within_threshold size s a s' :
  1 <= size -> within_threshold size s -> step s a = Some s' ->
  within_threshold size s'.
Proof.
  intros Hsize (Hb & Hlen & Hf).
  destruct a as [now sev num msg attrs | net | net]; cbn [step].
  - intros [= <-]. unfold Log.
    destruct (try_send _ _); repeat split; assumption.
  - unfold on_entry. destruct (receive _) as [[entry q] |]; [| discriminate].
    unfold with_logQueue. cbn [batchSize]. rewrite Hb, length_app. cbn [List.length].
    destruct (Z.of_nat _ >=? size) eqn:Hge; intros [= <-].
    + apply Z.geb_le in Hge. unfold flush, within_threshold.
      cbn [sender batch flushes batchSize List.length].
      split; [first [assumption | reflexivity] | split; [lia |]].
      apply Forall_app. split; [assumption |].
      constructor; [| constructor]. cbn [fst snd].
      rewrite length_app. cbn [List.length]. repeat split; lia.
    + rewrite Z.geb_leb in Hge. apply Z.leb_gt in Hge.
      unfold within_threshold. cbn [sender batch flushes batchSize].
      rewrite length_app. cbn [List.length]. repeat split; assumption.
  - intros [= <-]. unfold on_tick.
    destruct (0 <? List.length (batch s))%nat eqn:Hpos; [| repeat split; assumption].
    apply Nat.ltb_lt in Hpos. unfold flush, within_threshold.
    cbn [sender batch flushes List.length].
    split; [first [assumption | reflexivity] | split; [lia |]].
    apply Forall_app. split; [assumption |].
    constructor; [| constructor]. cbn [fst snd].
    repeat split; [lia | lia | discriminate].
Qed.

Lemma run_within_threshold size schedule : forall s s',
  1 <= size -> within_threshold size s -> run s schedule = Some s' ->
  within_threshold size s'.
Proof.
  induction schedule as [| a schedule IH]; intros s s' Hsize Hs; cbn [run].
  - now intros [= <-].
  - destruct (step s a) as [s1 |] eqn:Hstep; [| discriminate].
    apply IH; [exact Hsize |]. now apply step_within_threshold with (s := s) (a := a).
Qed.

(** X4.  A sender is started with a threshold of at least 1.  Then in
    every run the batch of the worker is shorter than the threshold
    between any two of its steps, no batch sent is empty or longer than
    the threshold, and a batch sent by the size test has exactly as many
    records as the threshold. *)
Theorem batch_within_threshold ep size schedule s :
  1 <= size ->
  run (Start (NewLogSender ep size)) schedule = Some s ->
  Z.of_nat (List.length (batch s)) < size /\
  Forall (fun f => (1 <= List.length (snd f))%nat /\
                   Z.of_nat (List.length (snd f)) <= size /\
                   (fst f = BySize -> Z.of_nat (List.length (snd f)) = size))
         (flushes s).
Proof.
  intros Hsize Hrun.
  destruct (run_within_threshold size schedule (Start (NewLogSender ep size)) s Hsize)
    as (_ & Hlen & Hf); [| exact Hrun | split; assumption].
  repeat split; [cbn; lia | constructor].
Qed.

(** Fifteen calls, twelve receives, a tick, three receives and a tick,
    with threshold 10. *)
Lemma batch_within_threshold_demo :
  exists s,
    run (Start demo_sender) (repeat demo_started 15 ++ demo_late) = Some s /\
    Z.of_nat (List.length (batch s)) < 10.
Proof.
  destruct (run (Start demo_sender) (repeat demo_started 15 ++ demo_late))
    as [s |] eqn:Hrun; [| vm_compute in Hrun; discriminate Hrun].
  exists s. split; [reflexivity |].
  apply (batch_within_threshold "http://localhost:4318" 10
           (repeat demo_started 15 ++ demo_late) s); [lia | exact Hrun].
Defined.





Lemma entries_cons a schedule :
  entries (a :: schedule) = (entries [a] + entries schedule)%nat.
Proof. destruct a; reflexivity. Qed.

Lemma step_taken n s a s' :
  taken n s -> step s a = Some s' -> taken (n + entries [a]) s'.
Proof.
  intros (Hn & Hf).
  destruct a as [now sev num msg attrs | net | net]; cbn [step entries].
  - intros [= <-]. unfold Log.
    destruct (try_send _ _); split; try assumption;
      unfold sent in *; cbn [flushes batch]; lia.
  - unfold on_entry. destruct (receive _) as [[entry q] |]; [| discriminate].
    destruct (Z.of_nat _ >=? _); intros [= <-]; split.
    + rewrite sent_flush. unfold flush. cbn [batch List.length].
      rewrite !length_app. cbn [List.length]. lia.
    + unfold flush. cbn [flushes]. apply Forall_app. split; [assumption |].
      constructor; [| constructor]. cbn [snd]. destruct (batch s); discriminate.
    + unfold sent in *. cbn [flushes batch]. rewrite length_app. cbn [List.length]. lia.
    + assumption.
  - intros [= <-]. unfold on_tick.
    destruct (batch s) as [| r rest] eqn:Hbatch; cbn [List.length Nat.ltb Nat.leb].
    + split; [rewrite Hbatch; cbn [List.length] in *; lia | assumption].
    + split.
      * rewrite sent_flush. unfold flush. cbn [batch List.length] in *.
        rewrite length_app. cbn [List.length]. lia.
      * unfold flush. cbn [flushes]. apply Forall_app. split; [assumption |].
        constructor; [discriminate | constructor].
Qed.

Lemma run_taken schedule : forall n s s',
  taken n s -> run s schedule = Some s' -> taken (n + entries schedule) s'.
Proof.
  induction schedule as [| a schedule IH]; intros n s s' Hs; cbn [run].
  - intros [= <-]. cbn [entries]. now rewrite Nat.add_0_r.
  - destruct (step s a) as [s1 |] eqn:Hstep; [| discriminate].
    rewrite entries_cons, Nat.add_assoc. apply IH.
    now apply step_taken with (s := s).
Qed.

Lemma length_concat_nonempty {A : Type} (l : list (list A)) :
  Forall (fun x => x <> []) l -> (List.length l <= List.length (List.concat l))%nat.
Proof.
  induction 1 as [| x l Hx _ IH]; cbn [List.concat List.length]; [lia |].
  rewrite length_app. destruct x; [congruence | cbn [List.length]; lia].
Qed.

(** X6.  In every run of a started sender, whatever its threshold, the
    records sent and those in the batch of the worker are as many as the
    worker has taken from the queue; no batch sent is empty, so there
    are no more batches than records taken; and of two ticks in a row
    the second changes nothing. *)
Theorem batches_of_taken_records ls schedule s :
  run (Start ls) schedule = Some s ->
  (List.length (sent s) + List.length (batch s))%nat = entries schedule /\
  Forall (fun f => snd f <> []) (flushes s) /\
  (List.length (flushes s) <= entries schedule)%nat /\
  forall net net', on_tick net' (on_tick net s) = on_tick net s.
Proof.
  intros Hrun.
  destruct (run_taken schedule 0 (Start ls) s) as (Hn & Hf);
    [split; [reflexivity | constructor] | exact Hrun |].
  cbn [Nat.add] in Hn. split; [exact Hn |]. split; [exact Hf |]. split.
  - assert (H : (List.length (map snd (flushes s)) <= List.length (sent s))%nat).
    { apply length_concat_nonempty. apply Forall_map. exact Hf. }
    rewrite length_map in H. lia.
  - intros net net'. apply on_tick_empty. unfold on_tick.
    destruct (batch s) as [| r rest] eqn:Hbatch; cbn [List.length Nat.ltb Nat.leb];
      [exact Hbatch | reflexivity].
Qed.

(** Fifteen calls, twelve receives, a tick, three receives and a tick. *)
Lemma batches_of_taken_records_demo :
  exists s,
    run (Start demo_sender) (repeat demo_started 15 ++ demo_late) = Some s /\
    (List.length (sent s) + List.length (batch s))%nat = 15%nat.
Proof.
  destruct (run (Start demo_sender) (repeat demo_started 15 ++ demo_late))
    as [s |] eqn:Hrun; [| vm_compute in Hrun; discriminate Hrun].
  exists s. split; [reflexivity |].
  apply (batches_of_taken_records demo_sender (repeat demo_started 15 ++ demo_late) s).
  exact Hrun.
Defined.

(** ** Requests *)

Lemma sendBatch_one_post ls net b :
  (List.length (posts (snd (sendBatch ls net b))) <= 1)%nat.
Proof.
  destruct (sendBatch_cases ls net b)
    as [(? & _ & ->) | [(? & ? & _ & _ & ->) | [(? & ? & _ & _ & _ & ->)
       | [(? & ? & ? & _ & _ & _ & _ & ->) | (? & ? & _ & _ & _ & _ & ->)]]]];
    cbn; lia.
Qed.

Lemma flush_requests ep t net b s :
  requests_in_order ep s -> requests_in_order ep (flush t net (sender s) b s).
Proof.
  intros (Hep & Hlen & Hf). unfold flush, requests_in_order.
  cbn [sender effects flushes]. rewrite posts_app, !length_app. cbn [List.length].
  pose proof (sendBatch_one_post (sender s) net b) as Hone.
  split; [exact Hep |]. split; [lia |].
  apply Forall_app. split; [exact Hf |].
  apply Forall_forall. intros req Hin.
  destruct (sendBatch_posts (sender s) net b req Hin) as (j & _ & ->).
  rewrite <- Hep. split; reflexivity.
Qed.

Lemma step_requests ep s a s' :
  requests_in_order ep s -> step s a = Some s' -> requests_in_order ep s'.
Proof.
  intros Hs. destruct a as [now sev num msg attrs | net | net]; cbn [step].
  - intros [= <-]. destruct Hs as (Hep & Hlen & Hf). unfold Log.
    destruct (try_send _ _); unfold requests_in_order;
      cbn [sender effects flushes with_logQueue endpoint]; try rewrite posts_app;
      cbn [posts]; try rewrite app_nil_r; repeat split; assumption.
  - unfold on_entry. destruct (receive _) as [[entry q] |] eqn:Hq; [| discriminate].
    destruct (Z.of_nat _ >=? _); intros [= <-].
    + destruct Hs as (Hep & Hlen & Hf).
      change (with_logQueue (sender s) q)
        with (sender (mkSystem (with_logQueue (sender s) q) (batch s) (effects s) (flushes s))).
      apply (flush_requests ep BySize net (batch s ++ [entry])
               (mkSystem (with_logQueue (sender s) q) (batch s) (effects s) (flushes s))).
      repeat split; assumption.
    + destruct Hs as (Hep & Hlen & Hf). repeat split; assumption.
  - intros [= <-]. unfold on_tick.
    destruct (0 <? List.length (batch s))%nat; [| exact Hs].
    now apply flush_requests.
Qed.

Lemma run_requests ep schedule : forall s s',
  requests_in_order ep s -> run s schedule = Some s' -> requests_in_order ep s'.
Proof.
  induction schedule as [| a schedule IH]; intros s s' Hs; cbn [run].
  - now intros [= <-].
  - destruct (step s a) as [s1 |] eqn:Hstep; [| discriminate].
    apply IH. now apply step_requests with (s := s) (a := a).
Qed.

(** X7.  In every run of a started sender the calls of [client.Do] are
    no more than the calls of [sendBatch]: the program hands a batch to
    the client once or not at all, never again, and a call of [Log]
    hands it nothing.  Every request handed to [client.Do] is a POST to
    the path [/v1/logs] of the endpoint the sender was made with.  (What
    the client does with a request, such as following a redirect, is
    not part of the program.) *)
Theorem requests_at_most_batches ep size schedule s :
  run (Start (NewLogSender ep size)) schedule = Some s ->
  (List.length (posts (effects s)) <= List.length (flushes s))%nat /\
  Forall (fun req => Method req = "POST" /\ URL req = ep ++ "/v1/logs")
         (posts (effects s)).
Proof.
  intros Hrun.
  destruct (run_requests ep schedule (Start (NewLogSender ep size)) s)
    as (_ & Hlen & Hf); [| exact Hrun | split; assumption].
  repeat split; [cbn; lia | constructor].
Qed.

(** Fifteen calls, twelve receives, a tick, three receives and a tick:
    three batches and three requests. *)
Lemma requests_at_most_batches_demo :
  exists s,
    run (Start demo_sender) (repeat demo_started 15 ++ demo_late) = Some s /\
    (List.length (posts (effects s)) <= List.length (flushes s))%nat.
Proof.
  destruct (run (Start demo_sender) (repeat demo_started 15 ++ demo_late))
    as [s |] eqn:Hrun; [| vm_compute in Hrun; discriminate Hrun].
  exists s. split; [reflexivity |].
  apply (requests_at_most_batches "http://localhost:4318" 10
           (repeat demo_started 15 ++ demo_late) s Hrun).
Defined.

(** ** Batches that have no document *)

Lemma marshalFloat64_succeeds f : succeeds_iff finite marshalFloat64 f.
Proof.
  unfold succeeds_iff, finite, marshalFloat64.
  destruct (PrimFloat.is_nan f); cbn [negb andb]; [eauto |].
  destruct (PrimFloat.is_infinity f); cbn [negb]; eauto.
Qed.

Lemma traverse_succeeds {A : Type} (ok : A -> bool) (enc : A -> result JSON)
    (l : list A) :
  Forall (succeeds_iff ok enc) l -> succeeds_iff (forallb ok) (traverse enc) l.
Proof.
  unfold succeeds_iff.
  induction 1 as [| x l Hx _ IH]; cbn [forallb traverse]; [eauto |].
  destruct (ok x); cbn [andb].
  - destruct Hx as (j & ->). cbn [bind].
    destruct (forallb ok l).
    + destruct IH as (js & ->). cbn [bind]. eauto.
    + destruct IH as (e & ->). cbn [bind]. eauto.
  - destruct Hx as (e & ->). cbn [bind]. eauto.
Qed.

Lemma ptr_succeeds {A : Type} key (ok : A -> bool) (enc : A -> result JSON) (p : option A) :
  opt_all (succeeds_iff ok enc) p ->
  succeeds_iff (holds ok) (fun p => f <- ptr_omitempty key enc p ;; Ok (JObj f)) p.
Proof.
  unfold succeeds_iff. destruct p as [x |]; cbn [opt_all holds ptr_omitempty bind];
    [| eauto].
  destruct (ok x); intros (y & ->); cbn [bind]; eauto.
Qed.

Lemma slice_succeeds {A : Type} key (ok : A -> bool) (enc : A -> result JSON) (vs : option (list A)) :
  opt_all (Forall (succeeds_iff ok enc)) vs ->
  succeeds_iff (holds (forallb ok))
    (fun vs => f <- slice_field key enc vs ;; Ok (JObj f)) vs.
Proof.
  destruct vs as [l |]; cbn [opt_all].
  - intros Hl. apply (traverse_succeeds ok enc) in Hl.
    unfold succeeds_iff in *. cbn [holds slice_field].
    destruct (forallb ok l); destruct Hl as (y & ->); cbn [bind]; eauto.
  - intros _. unfold succeeds_iff. cbn. eauto.
Qed.

Lemma finite_value_step s b i d a k bs :
  opt_all (succeeds_iff finite_array marshalArrayValue) a ->
  opt_all (succeeds_iff finite_kvlist marshalKvlistValue) k ->
  succeeds_iff finite_value marshalAttributeValue (mkAttributeValue s b i d a k bs).
Proof.
  intros IHa IHk.
  pose proof (ptr_succeeds "doubleValue" finite marshalFloat64 d) as Hd.
  pose proof (ptr_succeeds "arrayValue" finite_array marshalArrayValue a IHa) as Ha.
  pose proof (ptr_succeeds "kvlistValue" finite_kvlist marshalKvlistValue k IHk) as Hk.
  assert (Hd' : opt_all (succeeds_iff finite marshalFloat64) d).
  { destruct d; cbn; [apply marshalFloat64_succeeds | trivial]. }
  specialize (Hd Hd'). clear Hd'.
  unfold succeeds_iff in *. rewrite marshalAttributeValue_eq.
  cbn [finite_value StringValue BoolValue IntValue DoubleValue ArrayVal KvlistVal BytesValue].
  assert (H1 : exists f1, ptr_omitempty "stringValue" marshalString s = Ok f1)
    by (destruct s; cbn; eauto).
  assert (H2 : exists f2, ptr_omitempty "boolValue" (fun b => Ok (JBool b)) b = Ok f2)
    by (destruct b; cbn; eauto).
  assert (H3 : exists f3, ptr_omitempty "intValue" (fun n => Ok (JInt n)) i = Ok f3)
    by (destruct i; cbn; eauto).
  destruct H1 as (f1 & ->), H2 as (f2 & ->), H3 as (f3 & ->). cbn [bind].
  destruct (holds finite d); cbn [andb].
  - destruct Hd as (jd & Hd).
    destruct (ptr_omitempty "doubleValue" marshalFloat64 d) as [f4 | e]; [| discriminate].
    cbn [bind]. destruct (holds finite_array a); cbn [andb].
    + destruct Ha as (ja & Ha).
      destruct (ptr_omitempty "arrayValue" marshalArrayValue a) as [f5 | e]; [| discriminate].
      cbn [bind]. destruct (holds finite_kvlist k).
      * destruct Hk as (jk & Hk).
        destruct (ptr_omitempty "kvlistValue" marshalKvlistValue k) as [f6 | e];
          [| discriminate].
        cbn [bind]. destruct bs; cbn [bind]; eauto.
      * destruct Hk as (e & Hk).
        destruct (ptr_omitempty "kvlistValue" marshalKvlistValue k) as [f6 | e'];
          [discriminate |]. cbn [bind]. eauto.
    + destruct Ha as (e & Ha).
      destruct (ptr_omitempty "arrayValue" marshalArrayValue a) as [f5 | e'];
        [discriminate |]. cbn [bind]. eauto.
  - destruct Hd as (e & Hd).
    destruct (ptr_omitempty "doubleValue" marshalFloat64 d) as [f4 | e'];
      [discriminate |]. cbn [bind]. eauto.
Qed.

Lemma finite_array_step vs :
  opt_all (Forall (succeeds_iff finite_value marshalAttributeValue)) vs ->
  succeeds_iff finite_array marshalArrayValue (mkArrayValue vs).
Proof.
  intros IH. apply (slice_succeeds "values") in IH.
  unfold succeeds_iff in *. rewrite marshalArrayValue_eq.
  cbn [finite_array ArrayValue_Values]. exact IH.
Qed.

Lemma finite_kvlist_step vs :
  opt_all (Forall (succeeds_iff finite_keyvalue marshalKeyValue)) vs ->
  succeeds_iff finite_kvlist marshalKvlistValue (mkKvlistValue vs).
Proof.
  intros IH. apply (slice_succeeds "values") in IH.
  unfold succeeds_iff in *. rewrite marshalKvlistValue_eq.
  cbn [finite_kvlist KvlistValue_Values]. exact IH.
Qed.

Lemma finite_keyvalue_step key v :
  succeeds_iff finite_value marshalAttributeValue v ->
  succeeds_iff finite_keyvalue marshalKeyValue (mkKeyValue key v).
Proof.
  unfold succeeds_iff. rewrite marshalKeyValue_eq.
  cbn [finite_keyvalue Key Value]. unfold field, marshalString. cbn [bind].
  destruct (finite_value v); intros (y & ->); cbn [bind]; eauto.
Qed.

(** A value, and a key/value pair, is written when all its doubles are
    finite and refused otherwise. *)
Lemma marshal_succeeds :
  (forall v, succeeds_iff finite_value marshalAttributeValue v) /\
  (forall kv, succeeds_iff finite_keyvalue marshalKeyValue kv).
Proof.
  split.
  - exact (AttributeValue_induction _ _ _ _
             finite_value_step finite_array_step finite_kvlist_step finite_keyvalue_step).
  - exact (KeyValue_induction _ _ _ _
             finite_value_step finite_array_step finite_kvlist_step finite_keyvalue_step).
Qed.

Lemma marshalLogRecord_succeeds r : succeeds_iff finite_record marshalLogRecord r.
Proof.
  pose proof (proj1 marshal_succeeds (Body r)) as Hbody.
  pose proof (traverse_succeeds finite_keyvalue marshalKeyValue (Attributes r)) as Hattrs.
  unfold succeeds_iff in *. unfold finite_record, marshalLogRecord, field, marshalString.
  cbn [bind].
  destruct (finite_value (Body r)); cbn [andb].
  - destruct Hbody as (j & ->). cbn [bind].
    assert (Hall : Forall (fun kv => if finite_keyvalue kv
                                     then exists j, marshalKeyValue kv = Ok j
                                     else exists e, marshalKeyValue kv = Err e)
                          (Attributes r)).
    { apply Forall_forall. intros kv _. apply (proj2 marshal_succeeds). }
    specialize (Hattrs Hall).
    destruct (Attributes r) as [| kv attrs]; [cbn; eauto |].
    cbn [slice_omitempty].
    destruct (forallb finite_keyvalue (kv :: attrs)); destruct Hattrs as (y & ->);
      cbn [bind]; eauto.
  - destruct Hbody as (e & ->). cbn [bind]. eauto.
Qed.

Lemma marshalPayload_succeeds b :
  succeeds_iff (forallb finite_record) (fun b => marshalPayload (payload b)) b.
Proof.
  pose proof (traverse_succeeds finite_record marshalLogRecord b) as Hb.
  assert (Hall : Forall (succeeds_iff finite_record marshalLogRecord) b).
  { apply Forall_forall. intros r _. apply marshalLogRecord_succeeds. }
  specialize (Hb Hall). unfold succeeds_iff in *.
  rewrite marshalPayload_envelope.
  destruct b as [| r b]; [cbn; eauto |]. cbn [slice_omitempty].
  destruct (forallb finite_record (r :: b)); destruct Hb as (y & ->); cbn [bind]; eauto.
Qed.

Lemma finite_value_convert v :
  finite_value (convertToAttributeValue v) = finite_host v.
Proof. destruct v; cbn -[finite]; rewrite ?andb_true_r; reflexivity. Qed.

(** X8.  A batch is written as a document when, and only when, none of
    the doubles in its records, at any depth, is NaN or infinite; no
    string, integer or other field makes [json.Marshal] fail.  So
    [sendBatch] ends in an encoding failure exactly on a batch that
    holds such a double, and then makes no request: one such value
    loses the whole batch.  A record built by [Log] is free of them when
    none of the attributes it was given is a NaN or an infinite float64. *)
Theorem encoding_fails_on_nan (b : list LogRecord) :
  (forallb finite_record b = true <-> exists j, marshalPayload (payload b) = Ok j) /\
  (forall ls net,
     (forallb finite_record b = false <-> fst (sendBatch ls net b) = EncodeFailure) /\
     (forallb finite_record b = false -> posts (snd (sendBatch ls net b)) = [])) /\
  (forall now severityText severityNumber message attrs,
     finite_record (new_entry now severityText severityNumber message attrs)
     = holds (forallb (fun kv => finite_host (snd kv))) attrs).
Proof.
  pose proof (marshalPayload_succeeds b) as Hb. unfold succeeds_iff in Hb.
  split; [| split].
  - destruct (forallb finite_record b); split; try reflexivity; try discriminate.
    + intros _. exact Hb.
    + intros (j & Hj). destruct Hb as (e & He). congruence.
  - intros ls net.
    destruct (sendBatch_cases ls net b)
      as [(e & Hm & ->) | [(j & ? & Hm & _ & ->) | [(j & ? & Hm & _ & _ & ->)
         | [(j & ? & ? & Hm & _ & _ & _ & ->) | (j & ? & Hm & _ & _ & _ & ->)]]]];
      cbn [fst snd posts];
      (destruct (forallb finite_record b);
       [destruct Hb as (j' & Hj') | destruct Hb as (e' & He')]);
      try congruence; repeat split; try reflexivity; try discriminate; congruence.
  - intros now sev num msg attrs. unfold finite_record.
    cbn [new_entry Body Attributes]. cbn [finite_value ofString DoubleValue ArrayVal KvlistVal holds andb].
    destruct attrs as [attrs |]; [| reflexivity]. cbn [holds].
    induction attrs as [| [key v] attrs IH]; [reflexivity |].
    cbn [map forallb fst snd]. rewrite IH.
    cbn [finite_keyvalue Value]. now rewrite finite_value_convert.
Qed.

(** ** Attributes on the wire *)

(** X9.  An attribute given to [Log] is written as an object with exactly
    one key, chosen by the type of the host value: [intValue] for an int
    or an int64, [doubleValue] for a float64, [boolValue] for a bool,
    and [stringValue] for a string and for a value of any other type;
    its value is a string, a number or a boolean, never an array, a
    key/value list or bytes.  The one attribute that is not written at
    all is a float64 that is NaN or infinite. *)
Theorem attribute_on_the_wire (v : GoValue) :
  (finite_host v = true ->
   exists leaf,
     marshalAttributeValue (convertToAttributeValue v)
     = Ok (JObj [(attribute_key v, leaf)]) /\
     scalar leaf = true) /\
  (finite_host v = false ->
   exists f e,
     v = GoFloat64 f /\
     marshalAttributeValue (convertToAttributeValue v) = Err e).
Proof.
  split.
  - intros Hfinite. rewrite marshalAttributeValue_eq.
    destruct v as [s | n | n | f | b | o];
      cbn [convertToAttributeValue ofString ofInt64 ofFloat64 ofBool
           StringValue BoolValue IntValue DoubleValue ArrayVal KvlistVal BytesValue
           ptr_omitempty marshalString bind app attribute_key];
      try (eexists; split; reflexivity).
    cbn [finite_host] in Hfinite.
    pose proof (marshalFloat64_succeeds f) as Hf. unfold succeeds_iff in Hf.
    rewrite Hfinite in Hf. destruct Hf as (j & Hj). rewrite Hj. cbn [bind app].
    exists j. split; [reflexivity |].
    unfold marshalFloat64 in Hj.
    destruct (PrimFloat.is_nan f); [discriminate |].
    destruct (PrimFloat.is_infinity f); [discriminate |].
    injection Hj as <-. reflexivity.
  - intros Hfinite. destruct v as [s | n | n | f | b | o]; try discriminate Hfinite.
    cbn [finite_host] in Hfinite.
    pose proof (marshalFloat64_succeeds f) as Hf. unfold succeeds_iff in Hf.
    rewrite Hfinite in Hf. destruct Hf as (e & He).
    exists f, e. split; [reflexivity |].
    rewrite marshalAttributeValue_eq.
    cbn [convertToAttributeValue ofFloat64
         StringValue BoolValue IntValue DoubleValue ptr_omitempty bind].
    rewrite He. reflexivity.
Qed.

(** ** The clock *)

(** X10.  The time of a record is the reading of the clock converted to
    uint64, so it is always within uint64; and when the clock reads a
    time before the epoch, where [UnixNano] is negative, the record is
    stamped with that reading plus 2^64, a time of 2^63 nanoseconds or
    more after the epoch. *)
Theorem Log_before_epoch now severityText severityNumber message attrs :
  in_int64 now ->
  let entry := new_entry now severityText severityNumber message attrs in
  in_uint64 (TimeUnixNano entry) /\
  (now < 0 ->
   TimeUnixNano entry = now + 2 ^ 64 /\ 2 ^ 63 <= TimeUnixNano entry).
Proof.
  intros Hrange entry. unfold in_int64, in_uint64 in *.
  subst entry. cbn [new_entry TimeUnixNano]. unfold uint64. split.
  - apply Z.mod_pos_bound. lia.
  - intros Hneg.
    assert (E : now mod 2 ^ 64 = now + 2 ^ 64).
    { symmetry. apply Z.mod_unique with (q := -1); lia. }
    rewrite E. lia.
Qed.

(** A clock that reads one nanosecond before the epoch. *)
Lemma Log_before_epoch_demo :
  TimeUnixNano (new_entry (-1) "INFO" 9 "Application started" None)
  = 18446744073709551615.
Proof.
  destruct (Log_before_epoch (-1) "INFO" 9 "Application started" None)
    as (_ & Hneg); [unfold in_int64; lia |].
  assert (Hbefore : -1 < 0) by lia.
  destruct (Hneg Hbefore) as (Htime & _).
  rewrite Htime. reflexivity.
Defined.
